(** * Tomato Wordle solver: a shallow embedding of [solver.py]

    The Python module is embedded function by function.

    - A [str] is a list of characters, an [int] is a [Z], and a list is
      indexed with stdpp's lookup and insert, the [IndexError] of the
      interpreter written out.
    - A function that can raise returns a [result]; loops are folds in
      that monad.
    - The [float] operations of the entropy are the fields of the class
      [PyNum]; what is proved of the entropy and of the ranking is
      proved for every number model that satisfies the laws it uses.
    - [print] and [input] append to an explicit list of messages,
      [input] reads from a list of lines, and the draw of
      [random.choice] is an argument.
    - The [while True] loop of [play_wordle] runs on fuel; the theorem
      on it gives the fuel that suffices.
    - [argparse] is a parameter of [main]: it returns the arguments or
      raises [SystemExit]. *)

From Stdlib Require Import ZArith Ascii String Reals Lra.
From stdpp Require Import base tactics option list sorting gmap strings.

Local Open Scope Z_scope.
Local Open Scope list_scope.

(** ** Python values and exceptions *)

(** A Python string.  The words of the vocabulary are ASCII letters, so
    a character is an [ascii]. *)
Abbreviation str := (list ascii).

(** The literal ["apple"] is written [py "apple"]. *)
Definition py (s : string) : str := list_ascii_of_string s.

(** The exceptions that the embedded code can raise.  [SystemExit] is
    what [argparse] raises, with the exit status, when it rejects the
    command line or has printed its help. *)
Inductive exn : Set :=
| IndexError
| KeyError
| ValueError
| ZeroDivisionError
| EOFError
| SystemExit (code : Z).

(** A computation either raises or returns. *)
Inductive result (A : Type) : Type :=
| Raise (e : exn)
| Ok (a : A).
Arguments Raise {A} e.
Arguments Ok {A} a.

#[global] Instance exn_eq_dec : EqDecision exn.
Proof. solve_decision. Defined.

#[global] Instance result_eq_dec {A} `{EqDecision A} : EqDecision (result A).
Proof. solve_decision. Defined.

#[global] Instance result_ret : MRet result := fun A a => Ok a.
#[global] Instance result_bind : MBind result := fun A B f m =>
  match m with
  | Raise e => Raise e
  | Ok a => f a
  end.

(** [l[i]] for [0 <= i]: out of range raises [IndexError]. *)
Definition getitem {A} (l : list A) (i : nat) : result A :=
  match l !! i with
  | Some a => Ok a
  | None => Raise IndexError
  end.

(** [l[i] = x] for [0 <= i]: out of range raises [IndexError]. *)
Definition setitem {A} (l : list A) (i : nat) (x : A) : result (list A) :=
  if decide (i < length l)%nat then Ok (<[i := x]> l) else Raise IndexError.

(** [for x in xs: s = body(x, s)], stopping at the first exception. *)
Fixpoint for_each {A S} (body : A -> S -> result S) (xs : list A) (s : S)
  : result S :=
  match xs with
  | [] => Ok s
  | x :: rest => s' ← body x s; for_each body rest s'
  end.

(** [len(l)] *)
Definition len {A} (l : list A) : Z := Z.of_nat (length l).

(** [l[:n]]: a negative [n] counts from the end. *)
Definition slice_to {A} (l : list A) (n : Z) : list A :=
  if decide (0 <= n) then take (Z.to_nat n) l
  else take (length l - Z.to_nat (- n)) l.

(** A [dict] keeps its keys in insertion order and [d[k] = v] on a key
    that is present keeps the key's place, so a dict is an association
    list without repeated keys. *)
Fixpoint dict_get {K V} `{EqDecision K} (d : list (K * V)) (k : K) (default : V)
  : V :=
  match d with
  | [] => default
  | (k', v) :: d' => if decide (k' = k) then v else dict_get d' k default
  end.

Fixpoint dict_set {K V} `{EqDecision K} (d : list (K * V)) (k : K) (v : V)
  : list (K * V) :=
  match d with
  | [] => [(k, v)]
  | (k', v') :: d' =>
    if decide (k' = k) then (k, v) :: d' else (k', v') :: dict_set d' k v
  end.

Definition dict_values {K V} (d : list (K * V)) : list V := d.*2.

(** [range(n)] *)
Definition range (n : nat) : list nat := seq 0 n.

(** ** [feedback] (solver.py, lines 57-73) *)

Definition GREEN : ascii := "g"%char.
Definition YELLOW : ascii := "y"%char.
Definition BLACK : ascii := "b"%char.

(** The two lists that the function updates in place. *)
Definition fb_state : Type := list ascii * list bool.

(** Body of the first loop (lines 62-64). *)
Definition mark_green (guess target : str) (i : nat) (st : fb_state)
  : result fb_state :=
  let '(fb, used) := st in
  gi ← getitem guess i;
  ti ← getitem target i;
  if decide (gi = ti) then
    fb ← setitem fb i GREEN;
    used ← setitem used i true;
    Ok (fb, used)
  else Ok (fb, used).

(** The inner loop (lines 68-72): the first unused position of [target]
    holding [guess[i]] is consumed and the scan stops. *)
Fixpoint scan_target (guess target : str) (i : nat) (js : list nat)
    (st : fb_state) : result fb_state :=
  match js with
  | [] => Ok st
  | j :: js' =>
    let '(fb, used) := st in
    uj ← getitem used j;
    if (uj : bool) then scan_target guess target i js' st
    else
      gi ← getitem guess i;
      tj ← getitem target j;
      if decide (gi = tj) then
        fb ← setitem fb i YELLOW;
        used ← setitem used j true;
        Ok (fb, used)
      else scan_target guess target i js' st
  end.

(** Body of the second loop (lines 66-72). *)
Definition mark_yellow (guess target : str) (i : nat) (st : fb_state)
  : result fb_state :=
  let '(fb, used) := st in
  fi ← getitem fb i;
  if decide (fi = GREEN) then Ok st
  else scan_target guess target i (range (length target)) st.

Definition feedback (guess target : str) : result str :=
  let fb := replicate (length guess) BLACK in
  let used := replicate (length target) false in
  st ← for_each (mark_green guess target) (range (length guess)) (fb, used);
  st ← for_each (mark_yellow guess target) (range (length guess)) st;
  Ok (fst st).

(** ** [filter_candidates] (lines 75-77) *)

(** The list comprehension evaluates [feedback] on every candidate in
    order; an exception in one of the calls ends the comprehension. *)
Fixpoint filter_candidates (candidates : list str) (guess fb : str)
  : result (list str) :=
  match candidates with
  | [] => Ok []
  | word :: rest =>
    f ← feedback guess word;
    kept ← filter_candidates rest guess fb;
    Ok (if decide (f = fb) then word :: kept else kept)
  end.

(** ** Floating-point numbers

    The entropy is a Python [float].  The code is embedded over an
    interface of the operations it uses, so that every definition below
    reads as the source does whatever the number model is.
    [math.log2] raises on an argument that is not positive; every
    argument it receives here is [count / total] for a count of at least
    one, so it is a total operation of the interface. *)
Class PyNum : Type := {
  num : Type;
  fzero : num;                 (* the initial [entropy = 0] *)
  truediv : Z -> Z -> num;     (* [count / total] on two ints, [total != 0] *)
  flog2 : num -> num;          (* [math.log2] *)
  fmul : num -> num -> num;
  fsub : num -> num -> num;
  fneg : num -> num;
  fltb : num -> num -> bool    (* [<], the comparison [list.sort] uses *)
}.

(** [list.sort(key=...)] is stable and compares keys with [<] only.  The
    stable sort is written as insertions from the right: an element goes
    in front of the first element whose key is not smaller than its
    own. *)
Fixpoint sort_insert {A K} (lt : K -> K -> bool) (key : A -> K) (x : A)
    (sorted : list A) : list A :=
  match sorted with
  | [] => [x]
  | y :: ys =>
    if lt (key y) (key x) then y :: sort_insert lt key x ys
    else x :: y :: ys
  end.

Definition list_sort {A K} (lt : K -> K -> bool) (key : A -> K) (l : list A)
  : list A :=
  foldr (sort_insert lt key) [] l.

Definition MIN_LEN : Z := 3.
Definition MAX_LEN : Z := 15.

(** The cap of the slice [[:500000]] in [load_vocab]. *)
Definition VOCAB_CAP : nat := Z.to_nat 500000.

(** [str.isalpha] on ASCII: non-empty and letters only. *)
Definition is_alpha_char (c : ascii) : bool :=
  let n := nat_of_ascii c in
  (Nat.leb 65 n && Nat.leb n 90) || (Nat.leb 97 n && Nat.leb n 122).

Definition isalpha (w : str) : bool :=
  match w with
  | [] => false
  | _ => forallb is_alpha_char w
  end.

(** [str.strip] and [str.lower] on ASCII. *)
Definition is_space (c : ascii) : bool :=
  let n := nat_of_ascii c in
  (Nat.leb 9 n && Nat.leb n 13) || (Nat.leb 28 n && Nat.leb n 32).

Fixpoint lstrip (s : str) : str :=
  match s with
  | c :: s' => if is_space c then lstrip s' else s
  | [] => []
  end.

Definition strip (s : str) : str := reverse (lstrip (reverse (lstrip s))).

Definition lower_char (c : ascii) : ascii :=
  let n := nat_of_ascii c in
  if Nat.leb 65 n && Nat.leb n 90 then ascii_of_nat (n + 32) else c.

Definition lower (s : str) : str := lower_char <$> s.

(** [load_vocab] (lines 46-53).  The word set of the [english_words]
    package is not part of the repository: it is the argument, in the
    order in which the set is enumerated. *)
Definition load_vocab (english_words_set : list str) : gmap Z (list str) :=
  let all_words := filter (λ w, isalpha w = true) english_words_set in
  foldl
    (λ vocab n,
       <[n := take VOCAB_CAP (filter (λ w, len w = n) all_words)]> vocab)
    ∅ (seqZ MIN_LEN (MAX_LEN + 1 - MIN_LEN)).

(** [random.choice(seq)]; [rnd] is the draw of the generator. *)
Definition random_choice {A} (rnd : nat) (l : list A) : result A :=
  match l with
  | [] => Raise IndexError
  | _ => getitem l (rnd `mod` length l)%nat
  end.

(** The outcomes that the specification names for a session. *)
Inductive outcome : Set :=
| Solved (turns : Z)
| Exhausted
| InvalidTarget
| InvalidLength
| EmptyVocabulary
| Uncaught (e : exn).

Section Solver.

Context {N : PyNum}.

(** The word set that [load_vocab] reads when the module is imported. *)
Variable english_words_set : list str.

Definition VOCABULARY_BY_LENGTH : gmap Z (list str) :=
  load_vocab english_words_set.

(** ** [calculate_entropy] (lines 79-90) *)

(** Body of the first loop (lines 84-85). *)
Definition count_pattern (guess target : str) (pattern_counts : list (str * Z))
  : result (list (str * Z)) :=
  f ← feedback guess target;
  Ok (dict_set pattern_counts f (dict_get pattern_counts f 0 + 1)).

(** [count / total] on two ints. *)
Definition py_truediv (count total : Z) : result num :=
  if decide (total = 0) then Raise ZeroDivisionError
  else Ok (truediv count total).

(** Body of the second loop (lines 88-89). *)
Definition add_entropy (total count : Z) (entropy : num) : result num :=
  p ← py_truediv count total;
  Ok (fsub entropy (fmul p (flog2 p))).

Definition calculate_entropy (guess : str) (candidates : list str)
  : result num :=
  let total := len candidates in
  pattern_counts ← for_each (count_pattern guess) candidates [];
  for_each (add_entropy total) (dict_values pattern_counts) fzero.

(** ** [rank_guesses] (lines 92-101)

    The progress bar of [tqdm] only decorates the iteration. *)
Definition rank_guesses (candidates full_vocab : list str) (topn : Z)
  : result (list (str * num)) :=
  entropies ←
    for_each
      (λ word entropies,
         e ← calculate_entropy word candidates;
         Ok (entropies ++ [(word, e)]))
      full_vocab [];
  Ok (slice_to (list_sort fltb (λ x, fneg x.2) entropies) topn).

(** ** Console output *)

(** One constructor per [print] or [input] prompt of the module. *)
Inductive message : Type :=
| MsgInvalidTarget (target : str)                    (* line 119 *)
| MsgTurn (turns : Z) (guess fb : str) (ent : num)   (* line 130 *)
| MsgSolved (target : str) (turns : Z)               (* line 132 *)
| MsgNoCandidates                                    (* line 136 *)
| MsgProgress (turn num_candidates max_candidates : Z) (* line 107 *)
| MsgNoVocabulary                                    (* line 145 *)
| MsgCandidateCount (turn count : Z)                 (* line 154 *)
| MsgPromptGuess (length' : Z)                       (* line 155 *)
| MsgInvalidWord                                     (* line 157 *)
| MsgPromptFeedback                                  (* line 161 *)
| MsgInvalidFeedback                                 (* line 163 *)
| MsgSuccess (guess : str) (turn : Z)                (* line 168 *)
| MsgNoMatch                                         (* line 173 *)
| MsgSuggestions (suggestions : list (str * num)).   (* lines 178-180 *)

(** [visualize_candidates] (lines 103-107): the bar is a function of the
    three numbers; its length divides by [max_candidates]. *)
Definition visualize_candidates (turn num_candidates max_candidates : Z)
  : result message :=
  if decide (max_candidates = 0) then Raise ZeroDivisionError
  else Ok (MsgProgress turn num_candidates max_candidates).

(** ** [play_wordle] (lines 109-139) *)

(** Truth value of the argument [target]: [None] and the empty string
    are false. *)
Definition truthy (target : option str) : bool :=
  match target with
  | Some (_ :: _) => true
  | _ => false
  end.

(** The [while True] loop (lines 125-139), one iteration per unit of
    [fuel]; [None] means that the fuel ran out. *)
Fixpoint play_loop (fuel : nat) (length' : Z) (target : str) (verbose : bool)
    (max_candidates turns : Z) (candidates : list str) (out : list message)
  : option (list message * result Z) :=
  match fuel with
  | O => None
  | S fuel' =>
    let turns := turns + 1 in
    match rank_guesses candidates candidates 1 with
    | Raise e => Some (out, Raise e)
    | Ok [] => Some (out, Raise IndexError)
    | Ok ((guess, ent) :: _) =>
      match feedback guess target with
      | Raise e => Some (out, Raise e)
      | Ok fb =>
        let out := if verbose then out ++ [MsgTurn turns guess fb ent] else out in
        if decide (fb = replicate (Z.to_nat length') GREEN) then
          Some (out ++ [MsgSolved target turns], Ok turns)
        else
          match filter_candidates candidates guess fb with
          | Raise e => Some (out, Raise e)
          | Ok [] => Some (out ++ [MsgNoCandidates], Ok (-1))
          | Ok candidates =>
            if verbose then
              match visualize_candidates turns (len candidates) max_candidates with
              | Raise e => Some (out, Raise e)
              | Ok m =>
                play_loop fuel' length' target verbose max_candidates turns
                  candidates (out ++ [m])
              end
            else
              play_loop fuel' length' target verbose max_candidates turns
                candidates out
          end
      end
    end
  end.

Definition play_wordle (fuel rnd : nat) (length' : Z) (target : option str)
    (verbose : bool) : option (list message * result Z) :=
  if decide (length' < MIN_LEN ∨ length' > MAX_LEN) then
    Some ([], Raise ValueError)
  else
    match VOCABULARY_BY_LENGTH !! length' with
    | None => Some ([], Raise KeyError)
    | Some full_vocab =>
      let candidates := full_vocab in
      let max_candidates := len candidates in
      let t := match target with Some t => t | None => [] end in
      if truthy target
         && bool_decide (len t ≠ length' ∨ t ∉ full_vocab) then
        Some ([MsgInvalidTarget t], Ok (-1))
      else
        match (if truthy target then Ok t else random_choice rnd candidates) with
        | Raise e => Some ([], Raise e)
        | Ok target =>
          play_loop fuel length' target verbose max_candidates 0 candidates []
        end
    end.

(** The outcome of a finished run of [play_wordle]: the [ValueError] of
    line 112 is the length check, and the two returns of [-1] differ in
    their last message. *)
Definition play_outcome (r : list message * result Z) : option outcome :=
  match r.2 with
  | Raise ValueError => Some InvalidLength
  | Raise e => Some (Uncaught e)
  | Ok turns =>
    match last r.1 with
    | Some (MsgInvalidTarget _) => Some InvalidTarget
    | Some MsgNoCandidates => Some Exhausted
    | Some (MsgSolved _ _) => Some (Solved turns)
    | _ => None
    end
  end.

(** ** [interactive_manual_mode] (lines 141-180) *)

(** [inputs] are the lines that [input] returns, in order; reading past
    the last one raises [EOFError]. *)
Fixpoint interactive_loop (inputs : list str) (length' : Z)
    (full_vocab : list str) (max_candidates turn : Z) (candidates : list str)
    (out : list message) : list message * result () :=
  let turn := turn + 1 in
  let out := out ++ [MsgCandidateCount turn (len candidates);
                     MsgPromptGuess length'] in
  match inputs with
  | [] => (out, Raise EOFError)
  | line :: inputs =>
    let guess := lower (strip line) in
    if bool_decide (len guess ≠ length' ∨ guess ∉ full_vocab) then
      interactive_loop inputs length' full_vocab max_candidates (turn - 1)
        candidates (out ++ [MsgInvalidWord])
    else
      let out := out ++ [MsgPromptFeedback] in
      match inputs with
      | [] => (out, Raise EOFError)
      | line :: inputs =>
        let fb := lower (strip line) in
        if bool_decide (len fb ≠ length')
           || existsb (λ c, bool_decide (c ∉ [GREEN; YELLOW; BLACK])) fb then
          interactive_loop inputs length' full_vocab max_candidates (turn - 1)
            candidates (out ++ [MsgInvalidFeedback])
        else if decide (fb = replicate (Z.to_nat length') GREEN) then
          (out ++ [MsgSuccess guess turn], Ok ())
        else
          match filter_candidates candidates guess fb with
          | Raise e => (out, Raise e)
          | Ok [] => (out ++ [MsgNoMatch], Ok ())
          | Ok candidates =>
            match visualize_candidates turn (len candidates) max_candidates with
            | Raise e => (out, Raise e)
            | Ok m =>
              match rank_guesses candidates candidates 100 with
              | Raise e => (out ++ [m], Raise e)
              | Ok suggestions =>
                interactive_loop inputs length' full_vocab max_candidates turn
                  candidates (out ++ [m; MsgSuggestions suggestions])
              end
            end
          end
      end
  end.

Definition interactive_manual_mode (length' : Z) (inputs : list str)
  : list message * result () :=
  match VOCABULARY_BY_LENGTH !! length' with
  | None | Some [] => ([MsgNoVocabulary], Ok ())
  | Some full_vocab =>
    let candidates := full_vocab in
    interactive_loop inputs length' full_vocab (len candidates) 0 candidates []
  end.

(** The outcome of a finished run of [interactive_manual_mode], read
    off its last message. *)
Definition interactive_outcome (r : list message * result ())
  : option outcome :=
  match r.2 with
  | Raise e => Some (Uncaught e)
  | Ok _ =>
    match last r.1 with
    | Some MsgNoVocabulary => Some EmptyVocabulary
    | Some MsgNoMatch => Some Exhausted
    | Some (MsgSuccess _ turn) => Some (Solved turn)
    | _ => None
    end
  end.

End Solver.

(** * Definitions used by the statements and the proofs *)

(** [s.count(L)] for a character [L]. *)
Definition count (s : str) (L : ascii) : nat :=
  length (filter (λ c, c = L) s).

(** Number of positions of the guess that hold [L] and are marked
    Correct or Present in [fb]. *)
Definition marked_count (L : ascii) (guess fb : str) : nat :=
  length (filter (λ p, p.1 = L ∧ (p.2 = GREEN ∨ p.2 = YELLOW)) (zip guess fb)).

(** Number of consumed positions of the target that hold [L]. *)
Definition used_count (L : ascii) (target : str) (used : list bool) : nat :=
  length (filter (λ p, p.1 = L ∧ p.2 = true) (zip target used)).

(** State of the first loop before iteration [i]: the positions below
    [i] are decided, the others are untouched. *)
Definition pass1_inv (guess target : str) (i : nat) (st : fb_state) : Prop :=
  length st.1 = length guess ∧ length st.2 = length target ∧
  (∀ k, (k < length guess)%nat ->
     st.1 !! k = Some (if bool_decide ((k < i)%nat ∧ guess !! k = target !! k)
                       then GREEN else BLACK)) ∧
  (∀ k, (i <= k)%nat -> (k < length target)%nat -> st.2 !! k = Some false) ∧
  (∀ L, (marked_count L guess st.1 <= used_count L target st.2)%nat).

(** State of the second loop, before any of its iterations. *)
Definition pass2_inv (guess target : str) (st : fb_state) : Prop :=
  length st.1 = length guess ∧ length st.2 = length target ∧
  (∀ k, (k < length guess)%nat ->
     st.1 !! k = Some GREEN ↔ guess !! k = target !! k) ∧
  (∀ L, (marked_count L guess st.1 <= used_count L target st.2)%nat).

(** The first loop of [calculate_entropy] on the list of feedbacks. *)
Definition tally (pattern_counts : list (str * Z)) (fbs : list str)
  : list (str * Z) :=
  foldl (λ pc f, dict_set pc f (dict_get pc f 0 + 1)) pattern_counts fbs.

Definition sum_values (d : list (str * Z)) : Z :=
  foldr Z.add 0 (dict_values d).

(** [x] may stand in front of [y] in a sorted list. *)
Definition key_le {A K} (lt : K -> K -> bool) (key : A -> K) (x y : A) : Prop :=
  lt (key y) (key x) = false.

(** [x] and [y] are in one tie class. *)
Definition key_tie {A K} (lt : K -> K -> bool) (key : A -> K) (x y : A) : Prop :=
  lt (key x) (key y) = false ∧ lt (key y) (key x) = false.

(** The entry of [VOCABULARY_BY_LENGTH] for a length. *)
Definition words_of_length (english_words_set : list str) (n : Z) : list str :=
  take VOCAB_CAP
    (filter (λ w, len w = n) (filter (λ w, isalpha w = true) english_words_set)).

Section Specification.

Context {N : PyNum}.

(** One term [p * math.log2(p)] of the sum. *)
Definition plogp (count total : Z) : num :=
  fmul (truediv count total) (flog2 (truediv count total)).

(** The second loop of [calculate_entropy] on the list of counts. *)
Definition entropy_sum (total : Z) (e0 : num) (counts : list Z) : num :=
  foldl (λ e c, fsub e (plogp c total)) e0 counts.

(** The comparison of two numbers is a strict weak order, which holds
    for exact arithmetic and for floats other than NaN, and negation
    reverses it. *)
Class PyNumOrder : Prop := {
  fltb_asym a b : fltb a b = true -> fltb b a = false;
  fltb_negtrans a b c : fltb a b = false -> fltb b c = false -> fltb a c = false;
  fltb_fneg a b : fltb (fneg a) (fneg b) = fltb b a
}.

(** The facts about the numbers on which the sign of the entropy rests.
    They hold for exact arithmetic.  For IEEE doubles they hold of the
    values that the loop computes as long as the counts are below 2^53,
    which the 500000 words of a vocabulary entry are: [count / total]
    is then 1.0 only for [count = total], where [math.log2] is exactly
    0.0, and is otherwise a double strictly between 0 and 1, whose
    logarithm and whose product with it are strictly negative; a sum
    that starts at 0.0 and subtracts strictly negative numbers is
    strictly positive. *)
Class PyNumLaws : Prop := {
  num_order :: PyNumOrder;
  plogp_one t : 0 < t -> plogp t t = fzero;
  plogp_neg c t : 0 < c < t -> fltb (plogp c t) fzero = true;
  fsub_zero_r a : fsub a fzero = a;
  fsub_neg a b : fltb a fzero = false -> fltb b fzero = true ->
                 fltb fzero (fsub a b) = true
}.

(** [x] has at least the entropy of [y]. *)
Definition entropy_ge (x y : str * num) : Prop := fltb x.2 y.2 = false.

(** [x] has the entropy [e], as far as [<] can tell. *)
Definition entropy_tie (e : num) (x : str * num) : Prop :=
  fltb x.2 e = false ∧ fltb e x.2 = false.

(** [scored] pairs every word of the pool, in order, with its entropy. *)
Definition scores (candidates pool : list str) (scored : list (str * num))
  : Prop :=
  Forall2 (λ w x, x.1 = w ∧ calculate_entropy w candidates = Ok x.2)
    pool scored.

(** A message of a turn that did not end the session. *)
Definition turn_message (m : message) : Prop :=
  match m with
  | MsgTurn _ _ _ _ | MsgProgress _ _ _ => True
  | _ => False
  end.

End Specification.

(** ** Exact arithmetic *)

#[global] Instance Rlt_decision (a b : R) : Decision (a < b)%R := Rlt_dec a b.

(** Exact real arithmetic is one model of the interface.  It is not the
    arithmetic of the interpreter, whose doubles round: no statement
    about the code is made of it alone.  It shows that the laws of
    [PyNumOrder] and [PyNumLaws] have a model, and the statements that
    hold for every number model are instantiated at it on concrete
    words. *)
Definition real_num : PyNum := {|
  num := R;
  fzero := 0%R;
  truediv count total := (IZR count / IZR total)%R;
  flog2 x := (ln x / ln 2)%R;
  fmul := Rmult;
  fsub := Rminus;
  fneg := Ropp;
  fltb a b := bool_decide (a < b)%R
|}.

(** ** Definitions for the further properties *)

(** One of the three marks of a pattern. *)
Definition is_mark (c : ascii) : Prop := c = GREEN ∨ c = YELLOW ∨ c = BLACK.

(** The first loop marks as many positions of a letter as it consumes. *)
Definition pass1_exact (guess target : str) (i : nat) (st : fb_state) : Prop :=
  pass1_inv guess target i st ∧
  ∀ L, marked_count L guess st.1 = used_count L target st.2.

(** State of the second loop before iteration [i]: a position below [i]
    was left black only if the target had no unused copy of its letter,
    and the positions from [i] on are not yellow yet. *)
Definition pass2_exact (guess target : str) (i : nat) (st : fb_state) : Prop :=
  pass2_inv guess target st ∧
  (∀ L, marked_count L guess st.1 = used_count L target st.2) ∧
  (∀ k gk j, (k < i)%nat -> st.1 !! k = Some BLACK -> guess !! k = Some gk ->
     target !! j = Some gk -> st.2 !! j = Some true) ∧
  (∀ k, (i <= k)%nat -> (k < length guess)%nat ->
     st.1 !! k = Some GREEN ∨ st.1 !! k = Some BLACK) ∧
  (∀ k c, st.1 !! k = Some c -> is_mark c) ∧
  (∀ k, st.1 !! k = Some YELLOW ->
     guess !! k ≠ target !! k ∧ ∃ j, target !! j = guess !! k).

Section Session.

Context {N : PyNum}.

(** The words played in the turn lines of an output. *)
Definition turn_guesses (out : list message) : list str :=
  omap (λ m, match m with MsgTurn _ guess _ _ => Some guess | _ => None end)
    out.

(** A turn line shows the feedback of its guess against [target]. *)
Definition truthful (target : str) (m : message) : Prop :=
  match m with
  | MsgTurn _ guess fb _ => feedback guess target = Ok fb
  | _ => True
  end.

(** A progress line is relative to [max_candidates] and shows a count
    from 1 to below [bound]. *)
Definition progress_below (bound max_candidates : Z) (m : message) : Prop :=
  match m with
  | MsgProgress _ count max' => max' = max_candidates ∧ 0 < count < bound
  | _ => True
  end.

(** A line that the guess prompt of the interactive mode rejects. *)
Definition rejected_guess (length' : Z) (full_vocab : list str) (line : str)
  : Prop :=
  len (lower (strip line)) ≠ length' ∨ lower (strip line) ∉ full_vocab.

(** A line that the feedback prompt of the interactive mode rejects. *)
Definition rejected_feedback (length' : Z) (line : str) : Prop :=
  len (lower (strip line)) ≠ length' ∨
  ¬ Forall is_mark (lower (strip line)).

(** ** [main] (lines 182-213) *)

(** The namespace that [parser.parse_args()] returns (line 208): one
    field per [add_argument] of lines 203-206. *)
Record args : Type := {
  args_length : Z;
  args_target : option str;
  args_interactive : bool;
  args_manual_guess : bool
}.

(** The output of [main]: the banner, the rule of 40 '=', what [argparse]
    prints before it exits with a status (its usage and error, or its
    help), and the output of the mode. *)
Inductive main_message : Type :=
| MsgBanner
| MsgRule
| MsgArgparse (code : Z)
| MsgOf (m : message).

Variable english_words_set : list str.

(** [argparse] is a library of the interpreter and not part of the
    repository: [parse_args argv] is what [parser.parse_args()] does on
    the command line [argv], either the exit status of the [SystemExit]
    it raises or the namespace it returns. *)
Variable parse_args : list str -> Z + args.

(** The two prints come first, so a command line that [argparse]
    rejects still shows the banner.  The value that [play_wordle]
    returns is dropped; an exception of the parser or of either mode
    leaves [main] as it is. *)
Definition main (fuel rnd : nat) (argv inputs : list str)
  : option (list main_message * result ()) :=
  let out := [MsgBanner; MsgRule] in
  match parse_args argv with
  | inl code => Some (out ++ [MsgArgparse code], Raise (SystemExit code))
  | inr a =>
    if args_interactive a || args_manual_guess a then
      let r := interactive_manual_mode english_words_set (args_length a) inputs in
      Some (out ++ (MsgOf <$> r.1), r.2)
    else
      match play_wordle english_words_set fuel rnd (args_length a)
              (args_target a) true with
      | None => None
      | Some r =>
        Some (out ++ (MsgOf <$> r.1),
              match r.2 with Raise e => Raise e | Ok _ => Ok () end)
      end
  end.

End Session.

(** * Worked examples of [feedback] *)

Example feedback_arise_raise :
  feedback (py "arise") (py "raise") = Ok (py "yyggg").
Proof. reflexivity. Qed.

Example feedback_short_target :
  feedback (py "arise") (py "rai") = Raise IndexError.
Proof. reflexivity. Qed.

Example feedback_duplicates :
  feedback (py "speed") (py "abide") = Ok (py "bbyby").
Proof. reflexivity. Qed.

(** * Properties of [feedback] *)

Section Loops.

Context {S : Type}.

(** Hoare-style rule for a [for i in range(n)] loop that cannot raise. *)
Lemma for_each_seq_inv (body : nat -> S -> result S) (P : nat -> S -> Prop)
    (k n : nat) (s : S) :
  P k s ->
  (forall i s, (k <= i < k + n)%nat -> P i s ->
     exists s', body i s = Ok s' /\ P (Datatypes.S i) s') ->
  exists s', for_each body (seq k n) s = Ok s' /\ P (k + n)%nat s'.
Proof.
  revert k s. induction n as [|n IH]; intros k s Hk Hstep; simpl.
  - exists s. rewrite Nat.add_0_r. done.
  - destruct (Hstep k s) as (s1 & Hb & Hs1); [lia | done |].
    rewrite Hb. simpl.
    destruct (IH (Datatypes.S k) s1) as (s2 & Hf & Hs2); [done | |].
    + intros i s0 Hi. apply Hstep. lia.
    + exists s2. split; [done |].
      by replace (k + Datatypes.S n)%nat with (Datatypes.S k + n)%nat by lia.
Qed.

Lemma for_each_range_inv (body : nat -> S -> result S) (P : nat -> S -> Prop)
    (n : nat) (s : S) :
  P O s ->
  (forall i s, (i < n)%nat -> P i s ->
     exists s', body i s = Ok s' /\ P (Datatypes.S i) s') ->
  exists s', for_each body (range n) s = Ok s' /\ P n s'.
Proof.
  intros H0 Hstep.
  apply (for_each_seq_inv body P 0 n s H0).
  intros i s0 Hi. apply Hstep. lia.
Qed.

End Loops.

Section Counting.

Context {A : Type} (P : A -> Prop) `{!∀ x, Decision (P x)}.

(** Overwriting one cell changes the number of cells that satisfy [P]
    by the difference between the new and the old cell. *)
Lemma length_filter_insert (l : list A) (i : nat) (x y : A) :
  l !! i = Some y ->
  (length (filter P (<[i := x]> l)) + (if decide (P y) then 1 else 0)
   = length (filter P l) + (if decide (P x) then 1 else 0))%nat.
Proof.
  revert i. induction l as [|a l IH]; intros [|i] Hi; simplify_eq/=.
  - rewrite !filter_cons. repeat case_decide; simpl; lia.
  - specialize (IH i Hi). rewrite !filter_cons.
    destruct (decide (P a)); simpl; lia.
Qed.

End Counting.

Lemma zip_insert_r {A B} (l : list A) (k : list B) (i : nat) (a : A) (b : B) :
  l !! i = Some a -> zip l (<[i := b]> k) = <[i := (a, b)]> (zip l k).
Proof.
  revert k i. induction l as [|a' l IH]; intros [|b' k] [|i] Hi;
    simplify_eq/=; try done.
  f_equal. by apply IH.
Qed.

Lemma lookup_zip_Some {A B} (l : list A) (k : list B) (i : nat) (a : A) (b : B) :
  l !! i = Some a -> k !! i = Some b -> zip l k !! i = Some (a, b).
Proof.
  intros Ha Hb. apply lookup_zip_with_Some. eauto.
Qed.

Lemma marked_count_insert (L : ascii) (guess fb : str) (i : nat) (g x : ascii) :
  guess !! i = Some g -> (i < length fb)%nat ->
  (marked_count L guess (<[i := x]> fb)
   <= marked_count L guess fb + (if decide (g = L) then 1 else 0))%nat.
Proof.
  intros Hg Hi. unfold marked_count.
  destruct (lookup_lt_is_Some_2 fb i Hi) as [y Hy].
  rewrite (zip_insert_r _ _ _ g) by done.
  pose proof (length_filter_insert
    (λ p : ascii * ascii, p.1 = L ∧ (p.2 = GREEN ∨ p.2 = YELLOW))
    (zip guess fb) i (g, x) (g, y) (lookup_zip_Some _ _ _ _ _ Hg Hy)) as H.
  simpl in H. repeat case_decide; intuition (simplify_eq/=; try lia).
Qed.

Lemma used_count_insert (L : ascii) (target : str) (used : list bool)
    (j : nat) (t : ascii) :
  target !! j = Some t -> used !! j = Some false ->
  used_count L target (<[j := true]> used)
  = (used_count L target used + (if decide (t = L) then 1 else 0))%nat.
Proof.
  intros Ht Hu. unfold used_count.
  rewrite (zip_insert_r _ _ _ t) by done.
  pose proof (length_filter_insert
    (λ p : ascii * bool, p.1 = L ∧ p.2 = true)
    (zip target used) j (t, true) (t, false) (lookup_zip_Some _ _ _ _ _ Ht Hu)) as H.
  simpl in H. repeat case_decide; intuition (simplify_eq/=; try lia).
Qed.

Lemma used_count_le (L : ascii) (target : str) (used : list bool) :
  (used_count L target used <= count target L)%nat.
Proof.
  unfold used_count, count. revert used.
  induction target as [|c target IH]; intros [|u used]; simpl; try lia.
  - specialize (IH used). rewrite !filter_cons. simpl.
    repeat case_decide; simpl; intuition (subst; simpl in *; try lia).
Qed.

Lemma marked_count_black (L : ascii) (guess : str) (n : nat) :
  marked_count L guess (replicate n BLACK) = O.
Proof.
  unfold marked_count. revert n.
  induction guess as [|c guess IH]; intros [|n]; simpl; try done.
  rewrite filter_cons_False; [apply IH |].
  simpl. intros [_ [H|H]]; discriminate H.
Qed.

Section FeedbackLoops.

Variables guess target : str.
Hypothesis Hlen : (length guess <= length target)%nat.

Lemma pass1_init :
  pass1_inv guess target 0
    (replicate (length guess) BLACK, replicate (length target) false).
Proof.
  repeat split; cbn [fst snd].
  - apply length_replicate.
  - apply length_replicate.
  - intros k Hk. rewrite lookup_replicate_2 by done.
    rewrite bool_decide_eq_false_2; [done | lia].
  - intros k _ Hk. by apply lookup_replicate_2.
  - intros L. rewrite marked_count_black. lia.
Qed.

Lemma mark_green_step (i : nat) (st : fb_state) :
  (i < length guess)%nat -> pass1_inv guess target i st ->
  exists st',
    mark_green guess target i st = Ok st' /\ pass1_inv guess target (S i) st'.
Proof.
  intros Hi. destruct st as [fb used].
  intros (Hfb & Hused & Hdone & Hfresh & Hcnt). simpl in *.
  destruct (lookup_lt_is_Some_2 guess i Hi) as [gi Hgi].
  destruct (lookup_lt_is_Some_2 target i ltac:(lia)) as [ti Hti].
  unfold mark_green, getitem, setitem. rewrite Hgi, Hti. simpl.
  destruct (decide (gi = ti)) as [->|Hne].
  - rewrite decide_True by lia. simpl. rewrite decide_True by lia. simpl.
    eexists. split; [done |].
    split; [| split; [| split; [| split]]]; cbn [fst snd].
    + by rewrite length_insert.
    + by rewrite length_insert.
    + intros k Hk. destruct (decide (k = i)) as [->|Hki].
      * rewrite list_lookup_insert_eq by lia.
        rewrite bool_decide_eq_true_2; [done |]. split; [lia | congruence].
      * rewrite list_lookup_insert_ne by done. rewrite Hdone by done.
        erewrite bool_decide_ext; [done |]. intuition lia.
    + intros k Hk Hkm. rewrite list_lookup_insert_ne by lia.
      apply Hfresh; lia.
    + intros L. specialize (Hcnt L).
      pose proof (marked_count_insert L guess fb i ti GREEN Hgi ltac:(lia)).
      rewrite (used_count_insert L target used i ti) by (auto with lia).
      lia.
  - eexists. split; [done |].
    split; [| split; [| split; [| split]]]; cbn [fst snd]; try done.
    + intros k Hk. rewrite Hdone by done.
      erewrite bool_decide_ext; [done |]. split.
      * intuition lia.
      * intros [Hlt Heq]. split; [|done].
        destruct (decide (k = i)) as [->|]; [|lia].
        rewrite Hgi, Hti in Heq. congruence.
    + intros k Hk Hkm. apply Hfresh; lia.
Qed.

Lemma pass1_pass2 (st : fb_state) :
  pass1_inv guess target (length guess) st -> pass2_inv guess target st.
Proof.
  intros (Hfb & Hused & Hdone & _ & Hcnt).
  split; [done |]. split; [done |]. split; [| done].
  intros k Hk. rewrite Hdone by done. split; intros H.
  - case_bool_decide as Hd; [tauto | discriminate H].
  - by rewrite bool_decide_eq_true_2.
Qed.

Lemma scan_target_step (i : nat) (js : list nat) (st : fb_state) :
  (i < length guess)%nat -> pass2_inv guess target st -> st.1 !! i ≠ Some GREEN ->
  Forall (λ j, (j < length target)%nat) js ->
  exists st', scan_target guess target i js st = Ok st' /\ pass2_inv guess target st'.
Proof.
  intros Hi Hinv Hng Hjs. induction Hjs as [|j js Hj _ IH]; simpl.
  - eauto.
  - destruct st as [fb used].
    destruct Hinv as (Hfb & Hused & Hgreen & Hcnt). simpl in *.
    destruct (lookup_lt_is_Some_2 used j ltac:(lia)) as [uj Huj].
    destruct (lookup_lt_is_Some_2 guess i Hi) as [gi Hgi].
    destruct (lookup_lt_is_Some_2 target j Hj) as [tj Htj].
    unfold getitem, setitem. rewrite Huj. simpl.
    destruct uj; [done |].
    rewrite Hgi, Htj. simpl.
    destruct (decide (gi = tj)) as [->|Hne]; [|done].
    rewrite decide_True by lia. simpl. rewrite decide_True by lia. simpl.
    eexists. split; [done |].
    split; [| split; [| split]]; cbn [fst snd].
    + by rewrite length_insert.
    + by rewrite length_insert.
    + intros k Hk. destruct (decide (k = i)) as [->|Hki].
      * rewrite list_lookup_insert_eq by lia. split; [discriminate 1 |].
        intros H. exfalso. apply Hng. by apply Hgreen.
      * rewrite list_lookup_insert_ne by done. by apply Hgreen.
    + intros L. specialize (Hcnt L).
      pose proof (marked_count_insert L guess fb i tj YELLOW Hgi ltac:(lia)).
      rewrite (used_count_insert L target used j tj) by done.
      lia.
Qed.

Lemma mark_yellow_step (i : nat) (st : fb_state) :
  (i < length guess)%nat -> pass2_inv guess target st ->
  exists st', mark_yellow guess target i st = Ok st' /\ pass2_inv guess target st'.
Proof.
  intros Hi Hinv. destruct st as [fb used]. unfold mark_yellow, getitem.
  pose proof Hinv as (Hfb & _). simpl in Hfb.
  destruct (lookup_lt_is_Some_2 fb i ltac:(lia)) as [fi Hfi].
  rewrite Hfi. simpl.
  destruct (decide (fi = GREEN)) as [->|Hne].
  - by exists (fb, used).
  - apply scan_target_step; [done | done | | ].
    + simpl. rewrite Hfi. congruence.
    + apply Forall_forall. intros j Hj. unfold range in Hj.
      apply elem_of_seq in Hj. lia.
Qed.

(** [feedback] returns whenever the target is at least as long as the
    guess, and its result satisfies the invariant of the second loop. *)
Lemma feedback_returns :
  exists fb, feedback guess target = Ok fb ∧ length fb = length guess ∧
    (∀ k, (k < length guess)%nat ->
       fb !! k = Some GREEN ↔ guess !! k = target !! k) ∧
    (∀ L, (marked_count L guess fb <= count target L)%nat).
Proof.
  unfold feedback.
  destruct (for_each_range_inv (mark_green guess target) (pass1_inv guess target)
              (length guess) _ pass1_init) as (st1 & -> & H1).
  { intros i st Hi. by apply mark_green_step. }
  simpl.
  destruct (for_each_range_inv (mark_yellow guess target) (λ _, pass2_inv guess target)
              (length guess) st1 (pass1_pass2 _ H1)) as (st2 & -> & H2).
  { intros i st Hi. by apply mark_yellow_step. }
  simpl. destruct H2 as (Hfb & Hused & Hgreen & Hcnt).
  exists st2.1. repeat (split; [done |]).
  intros L. etrans; [apply Hcnt | apply used_count_le].
Qed.

End FeedbackLoops.

(** The result is all green exactly when the two words agree at every
    position of the guess. *)
Lemma feedback_all_green (guess target fb : str) :
  length guess = length target -> feedback guess target = Ok fb ->
  fb = replicate (length guess) GREEN ↔ guess = target.
Proof.
  intros Hlen Hfb.
  destruct (feedback_returns guess target ltac:(lia))
    as (fb' & Hfb' & Hlfb & Hgreen & _).
  rewrite Hfb in Hfb'. injection Hfb' as <-. split.
  - intros ->. apply (list_eq_same_length _ _ (length guess)); [done.. |].
    intros k x y Hk Hx Hy.
    assert (guess !! k = target !! k) as Heq.
    { apply Hgreen; [done |]. by apply lookup_replicate_2. }
    congruence.
  - intros <-. apply (list_eq_same_length _ _ (length guess)).
    + by rewrite length_replicate.
    + done.
    + intros k x y Hk Hx Hy. rewrite lookup_replicate_2 in Hy by done.
      assert (fb !! k = Some GREEN) as Hg by by apply Hgreen.
      congruence.
Qed.

(** The converse of [feedback_returns]: a guess longer than the target
    runs off the end of the target in the first loop. *)
Lemma mark_green_cases (guess target : str) (i : nat) (st : fb_state) :
  (i < length guess)%nat -> (i < length target)%nat ->
  length st.1 = length guess -> length st.2 = length target ->
  ∃ st', mark_green guess target i st = Ok st' ∧
         length st'.1 = length guess ∧ length st'.2 = length target.
Proof.
  intros Hi Hj Hfb Hused. destruct st as [fb used]. simpl in *.
  destruct (lookup_lt_is_Some_2 guess i Hi) as [gi Hgi].
  destruct (lookup_lt_is_Some_2 target i Hj) as [ti Hti].
  unfold mark_green, getitem, setitem. rewrite Hgi, Hti. simpl.
  destruct (decide (gi = ti)); [| by eexists].
  rewrite decide_True by lia. simpl. rewrite decide_True by lia. simpl.
  eexists. split; [done |]. simpl. by rewrite !length_insert.
Qed.

Lemma mark_green_loop_raises (guess target : str) (n k : nat) (st : fb_state) :
  (length target < length guess)%nat ->
  (k <= length target < k + n)%nat ->
  length st.1 = length guess -> length st.2 = length target ->
  for_each (mark_green guess target) (seq k n) st = Raise IndexError.
Proof.
  intros Hlen. revert k st.
  induction n as [|n IH]; intros k st Hk Hfb Hused; [lia |]. simpl.
  destruct (decide (k = length target)) as [->|Hne].
  - destruct st as [fb used]. unfold mark_green, getitem.
    destruct (lookup_lt_is_Some_2 guess (length target) Hlen) as [g ->]. simpl.
    by rewrite (lookup_ge_None_2 target (length target)) by lia.
  - destruct (mark_green_cases guess target k st) as (st' & -> & ? & ?);
      [lia | lia | done | done |].
    simpl. apply IH; [lia | done | done].
Qed.

Lemma feedback_raises (guess target : str) :
  (length target < length guess)%nat -> feedback guess target = Raise IndexError.
Proof.
  intros Hlen. unfold feedback, range.
  rewrite (mark_green_loop_raises guess target); simpl; try done.
  - lia.
  - apply length_replicate.
  - apply length_replicate.
Qed.

(** * Properties of [filter_candidates] *)

Lemma filter_candidates_returns (candidates : list str) (guess fb : str) :
  Forall (λ w, (length guess <= length w)%nat) candidates ->
  filter_candidates candidates guess fb
  = Ok (filter (λ w, feedback guess w = Ok fb) candidates).
Proof.
  induction 1 as [|word rest Hword _ IH]; simpl; [done |].
  destruct (feedback_returns guess word Hword) as (f & Hf & _).
  rewrite Hf, IH. simpl. rewrite filter_cons, Hf.
  destruct (decide (f = fb)) as [->|Hne].
  - by rewrite decide_True.
  - rewrite decide_False; [done | congruence].
Qed.

(** * Properties of the pattern counts *)

Lemma count_patterns_returns (guess : str) (candidates : list str)
    (pattern_counts : list (str * Z)) :
  Forall (λ w, (length guess <= length w)%nat) candidates ->
  ∃ fbs, Forall2 (λ c f, feedback guess c = Ok f) candidates fbs ∧
    for_each (count_pattern guess) candidates pattern_counts
    = Ok (tally pattern_counts fbs).
Proof.
  intros H. revert pattern_counts.
  induction H as [|word rest Hword _ IH]; intros pc; simpl.
  - exists []. by split; [constructor |].
  - destruct (feedback_returns guess word Hword) as (f & Hf & _).
    assert (count_pattern guess word pc
            = Ok (dict_set pc f (dict_get pc f 0 + 1))) as ->.
    { unfold count_pattern. by rewrite Hf. }
    simpl.
    destruct (IH (dict_set pc f (dict_get pc f 0 + 1))) as (fbs & Hall & ->).
    exists (f :: fbs). by split; [constructor |].
Qed.

Section Dict.

Context {V : Type}.
Implicit Types (d : list (str * V)) (k : str) (v : V).

Lemma dict_set_keys d k v :
  (dict_set d k v).*1 = if decide (k ∈ d.*1) then d.*1 else d.*1 ++ [k].
Proof.
  induction d as [|[k' v'] d IH]; csimpl.
  - done.
  - destruct (decide (k' = k)) as [->|Hne]; csimpl.
    + rewrite decide_True; [done | left].
    + rewrite IH. destruct (decide (k ∈ d.*1)) as [Hin|Hnin].
      * rewrite decide_True; [done | by right].
      * rewrite decide_False; [done |].
        rewrite elem_of_cons. intros [Heq|Hin]; [by subst | done].
Qed.

Lemma dict_set_NoDup d k v : NoDup d.*1 -> NoDup (dict_set d k v).*1.
Proof.
  intros Hd. rewrite dict_set_keys. case_decide as Hin; [done |].
  apply NoDup_app. split; [done |]. split.
  - intros x Hx Hk. apply list_elem_of_singleton in Hk. by subst.
  - apply NoDup_singleton.
Qed.

Lemma dict_set_elem_of d k v k' :
  k' ∈ (dict_set d k v).*1 ↔ k' ∈ d.*1 ∨ k' = k.
Proof.
  rewrite dict_set_keys. case_decide as Hin.
  - split; [by left |]. intros [H| ->]; done.
  - by rewrite elem_of_app, list_elem_of_singleton.
Qed.

End Dict.

Lemma dict_get_pos (d : list (str * Z)) (k : str) :
  Forall (λ v, 0 < v) (dict_values d) -> 0 <= dict_get d k 0.
Proof.
  unfold dict_values. induction d as [|[k' v'] d IH]; simpl; [lia |].
  intros H. apply Forall_cons in H as [Hv Hd].
  case_decide; [lia | by apply IH].
Qed.

Lemma dict_set_Forall (P : Z -> Prop) (d : list (str * Z)) (k : str) (v : Z) :
  Forall P (dict_values d) -> P v -> Forall P (dict_values (dict_set d k v)).
Proof.
  unfold dict_values. induction d as [|[k' v'] d IH]; csimpl; intros H Hv.
  - by repeat constructor.
  - apply Forall_cons in H as [Hv' Hd].
    case_decide; csimpl; constructor; try done. by apply IH.
Qed.

Lemma dict_incr_pos (d : list (str * Z)) (k : str) :
  Forall (λ v, 0 < v) (dict_values d) ->
  Forall (λ v, 0 < v) (dict_values (dict_set d k (dict_get d k 0 + 1))).
Proof.
  intros H. apply dict_set_Forall; [done |].
  pose proof (dict_get_pos d k H). lia.
Qed.

Lemma dict_set_sum (d : list (str * Z)) (k : str) (v : Z) :
  sum_values (dict_set d k v) = sum_values d - dict_get d k 0 + v.
Proof.
  unfold sum_values, dict_values. induction d as [|[k' v'] d IH]; csimpl; [lia |].
  case_decide; csimpl; lia.
Qed.

Lemma dict_incr_sum (d : list (str * Z)) (k : str) :
  sum_values (dict_set d k (dict_get d k 0 + 1)) = sum_values d + 1.
Proof. rewrite dict_set_sum. lia. Qed.

Lemma tally_NoDup (pc : list (str * Z)) (fbs : list str) :
  NoDup pc.*1 -> NoDup (tally pc fbs).*1.
Proof.
  revert pc. induction fbs as [|f fbs IH]; intros pc Hpc; simpl; [done |].
  apply IH. by apply dict_set_NoDup.
Qed.

Lemma tally_elem_of (pc : list (str * Z)) (fbs : list str) (k : str) :
  k ∈ (tally pc fbs).*1 ↔ k ∈ pc.*1 ∨ k ∈ fbs.
Proof.
  revert pc. induction fbs as [|f fbs IH]; intros pc; simpl.
  - rewrite elem_of_nil. tauto.
  - unfold tally in IH. rewrite IH, dict_set_elem_of, elem_of_cons. tauto.
Qed.

Lemma tally_pos (pc : list (str * Z)) (fbs : list str) :
  Forall (λ v, 0 < v) (dict_values pc) ->
  Forall (λ v, 0 < v) (dict_values (tally pc fbs)).
Proof.
  revert pc. induction fbs as [|f fbs IH]; intros pc Hpc; simpl; [done |].
  apply IH. by apply dict_incr_pos.
Qed.

Lemma tally_sum (pc : list (str * Z)) (fbs : list str) :
  sum_values (tally pc fbs) = sum_values pc + len fbs.
Proof.
  revert pc. induction fbs as [|f fbs IH]; intros pc; simpl.
  - unfold len. simpl. lia.
  - unfold tally in IH. rewrite IH, dict_incr_sum. unfold len. simpl. lia.
Qed.

(** * Properties of [calculate_entropy] *)

Lemma sum_pos_elem (vs : list Z) (v : Z) :
  Forall (λ v, 0 < v) vs -> v ∈ vs -> v <= foldr Z.add 0 vs.
Proof.
  induction 1 as [|a vs Ha Hvs IH]; simpl; intros Hin.
  - by apply elem_of_nil in Hin.
  - assert (0 <= foldr Z.add 0 vs).
    { clear IH Hin. induction Hvs; simpl; lia. }
    apply elem_of_cons in Hin as [->|Hin]; [lia |].
    specialize (IH Hin). lia.
Qed.

Lemma sum_pos_strict (vs : list Z) :
  Forall (λ v, 0 < v) vs -> (2 <= length vs)%nat ->
  Forall (λ v, 0 < v < foldr Z.add 0 vs) vs.
Proof.
  intros Hpos Hlen. apply Forall_forall. intros v Hin.
  split; [by eapply Forall_forall in Hpos |].
  destruct vs as [|a [|b vs]]; simpl in Hlen; try lia.
  apply Forall_cons in Hpos as [Ha Hpos].
  pose proof Hpos as Hpos'. apply Forall_cons in Hpos' as [Hb Hvs].
  assert (0 <= foldr Z.add 0 vs).
  { clear -Hvs. induction Hvs; simpl; lia. }
  apply elem_of_cons in Hin as [->|Hin]; simpl; [lia |].
  pose proof (sum_pos_elem _ _ Hpos Hin) as Hle. simpl in Hle. lia.
Qed.

Section Entropy.

Context {N : PyNum}.

Lemma entropy_loop_returns (total : Z) (counts : list Z) (e0 : num) :
  total ≠ 0 ∨ counts = [] ->
  for_each (add_entropy total) counts e0 = Ok (entropy_sum total e0 counts).
Proof.
  intros [Ht| ->]; [| done].
  revert e0. induction counts as [|c counts IH]; intros e0; simpl; [done |].
  assert (add_entropy total c e0 = Ok (fsub e0 (plogp c total))) as ->.
  { unfold add_entropy, py_truediv. by rewrite decide_False. }
  apply IH.
Qed.

Lemma calculate_entropy_returns (guess : str) (candidates : list str) :
  Forall (λ w, (length guess <= length w)%nat) candidates ->
  ∃ fbs, Forall2 (λ c f, feedback guess c = Ok f) candidates fbs ∧
    calculate_entropy guess candidates
    = Ok (entropy_sum (len candidates) fzero (dict_values (tally [] fbs))).
Proof.
  intros Hlen. unfold calculate_entropy.
  destruct (count_patterns_returns guess candidates [] Hlen) as (fbs & Hall & ->).
  exists fbs. split; [done |]. simpl.
  apply entropy_loop_returns.
  destruct Hall; [by right | left]. unfold len. simpl. lia.
Qed.

Context {L : PyNumLaws}.

Lemma fltb_irrefl (a : num) : fltb a a = false.
Proof.
  destruct (fltb a a) eqn:H; [| done].
  pose proof (fltb_asym a a H). congruence.
Qed.

Lemma entropy_sum_pos (total : Z) (counts : list Z) (e0 : num) :
  Forall (λ c, 0 < c < total) counts -> counts ≠ [] ->
  fltb e0 fzero = false ->
  fltb fzero (entropy_sum total e0 counts) = true.
Proof.
  intros Hall. revert e0.
  induction Hall as [|c counts Hc Hall IH]; intros e0 Hne He0; [done |].
  simpl.
  assert (fltb fzero (fsub e0 (plogp c total)) = true) as H1.
  { apply fsub_neg; [done |]. by apply plogp_neg. }
  destruct counts as [|c' counts]; [done |].
  apply IH; [done |]. by apply fltb_asym.
Qed.

(** Sign and zero condition of the entropy over any number model that
    satisfies the laws. *)
Lemma calculate_entropy_sign (guess : str) (candidates : list str) :
  candidates ≠ [] ->
  Forall (λ w, (length guess <= length w)%nat) candidates ->
  ∃ e, calculate_entropy guess candidates = Ok e ∧
    fltb e fzero = false ∧
    (e = fzero ∨ fltb fzero e = true) ∧
    (e = fzero ↔
     ∀ c1 c2, c1 ∈ candidates -> c2 ∈ candidates ->
       feedback guess c1 = feedback guess c2).
Proof.
  intros Hne Hlen.
  destruct (calculate_entropy_returns guess candidates Hlen) as (fbs & Hall & ->).
  eexists. split; [done |].
  pose proof (Forall2_length _ _ _ Hall) as Hlenfbs.
  assert (∀ f, f ∈ fbs ↔ ∃ c, c ∈ candidates ∧ feedback guess c = Ok f) as Hfbs.
  { intros f. split.
    - intros Hin. apply list_elem_of_lookup in Hin as [i Hi].
      destruct (Forall2_lookup_r _ _ _ _ _ Hall Hi) as (c & Hc & Hcf).
      exists c. split; [by eapply list_elem_of_lookup_2 | done].
    - intros (c & Hin & Hcf). apply list_elem_of_lookup in Hin as [i Hi].
      destruct (Forall2_lookup_l _ _ _ _ _ Hall Hi) as (f' & Hf' & Hcf').
      rewrite Hcf in Hcf'. injection Hcf' as <-.
      by eapply list_elem_of_lookup_2. }
  pose proof (tally_NoDup [] fbs (NoDup_nil_2)) as Hnd.
  pose proof (tally_elem_of [] fbs) as Hkeys.
  pose proof (tally_pos [] fbs (Forall_nil_2 _)) as Hpos.
  pose proof (tally_sum [] fbs) as Hsum.
  replace (len fbs) with (len candidates) in Hsum by (unfold len; lia).
  unfold sum_values in Hsum. simpl in Hsum.
  rewrite Z.add_0_l in Hsum.
  destruct (tally [] fbs) as [|[f1 v1] [|[f2 v2] pc]] eqn:Hpc.
  - exfalso. destruct candidates as [|c cs]; [done |].
    inversion Hall as [|? f ? fs Hf Hfs]; subst.
    assert (f ∈ ([] : list (str * Z)).*1) as Hin.
    { apply Hkeys. right. left. }
    by apply elem_of_nil in Hin.
  - unfold dict_values in *. csimpl in *.
    assert (v1 = len candidates) as -> by lia.
    assert (0 < len candidates) as Htot.
    { by apply Forall_cons in Hpos as [? _]. }
    rewrite plogp_one by done. rewrite fsub_zero_r.
    split; [apply fltb_irrefl |]. split; [by left |]. split; [| done].
    intros _ c1 c2 Hc1 Hc2.
    assert (∀ c, c ∈ candidates -> feedback guess c = Ok f1) as Hsame.
    { intros c Hc. apply list_elem_of_lookup in Hc as [i Hi].
      destruct (Forall2_lookup_l _ _ _ _ _ Hall Hi) as (f & Hf & Hcf).
      assert (f ∈ [f1]) as Hin.
      { apply Hkeys. right. by eapply list_elem_of_lookup_2. }
      apply list_elem_of_singleton in Hin. by subst. }
    by rewrite !Hsame.
  - set (counts := dict_values ((f1, v1) :: (f2, v2) :: pc)) in *.
    assert (fltb fzero (entropy_sum (len candidates) fzero counts) = true) as Hgt.
    { apply entropy_sum_pos.
      - rewrite <- Hsum. apply sum_pos_strict; [done |].
        unfold counts, dict_values. csimpl. lia.
      - done.
      - apply fltb_irrefl. }
    split; [by apply fltb_asym |]. split; [by right |]. split.
    + intros Heq. rewrite Heq in Hgt. by rewrite fltb_irrefl in Hgt.
    + intros Hsame. exfalso.
      csimpl in Hnd. csimpl in Hkeys.
      assert (f1 ∈ fbs) as H1.
      { pose proof (proj1 (Hkeys f1) ltac:(left)) as [H|H]; [| done].
        by apply elem_of_nil in H. }
      assert (f2 ∈ fbs) as H2.
      { pose proof (proj1 (Hkeys f2) ltac:(right; left)) as [H|H]; [| done].
        by apply elem_of_nil in H. }
      apply Hfbs in H1 as (c1 & Hc1 & Hf1). apply Hfbs in H2 as (c2 & Hc2 & Hf2).
      specialize (Hsame c1 c2 Hc1 Hc2).
      assert (f1 = f2) as -> by congruence.
      apply NoDup_cons in Hnd as [Hnin _]. apply Hnin. left.
Qed.

End Entropy.

(** * The laws hold for exact arithmetic *)

Lemma ln_2_pos : (0 < ln 2)%R.
Proof. pose proof ln_lt_2. lra. Qed.

Lemma real_plogp_neg (c t : Z) :
  0 < c < t -> (IZR c / IZR t * (ln (IZR c / IZR t) / ln 2) < 0)%R.
Proof.
  intros [Hc Ht].
  assert (0 < IZR c)%R as Hc' by (apply IZR_lt; lia).
  assert (IZR c < IZR t)%R as Ht' by (by apply IZR_lt).
  assert (0 < IZR c / IZR t)%R as Hp by (apply Rdiv_lt_0_compat; lra).
  assert (IZR c / IZR t < 1)%R as Hp1.
  { apply (Rmult_lt_reg_r (IZR t)); [lra |]. field_simplify; lra. }
  assert (ln (IZR c / IZR t) < 0)%R as Hln.
  { rewrite <- ln_1. by apply ln_increasing. }
  pose proof ln_2_pos as H2.
  assert (ln (IZR c / IZR t) / ln 2 < 0)%R as Hq.
  { unfold Rdiv. apply (Rmult_lt_reg_r (ln 2)); [done |].
    rewrite Rmult_assoc, Rinv_l by lra. lra. }
  nra.
Qed.

Lemma real_num_order : @PyNumOrder real_num.
Proof.
  split; simpl.
  - intros a b H. apply bool_decide_eq_true in H.
    apply bool_decide_eq_false. lra.
  - intros a b c H1 H2. apply bool_decide_eq_false in H1, H2.
    apply bool_decide_eq_false. lra.
  - intros a b. apply bool_decide_ext. split; lra.
Qed.

Lemma real_num_laws : @PyNumLaws real_num.
Proof.
  split; simpl.
  - apply real_num_order.
  - intros t Ht. unfold plogp. simpl.
    assert (0 < IZR t)%R by (apply IZR_lt; lia).
    replace (IZR t / IZR t)%R with 1%R by (field; lra).
    rewrite ln_1. lra.
  - intros c t H. unfold plogp. simpl.
    apply bool_decide_eq_true. by apply real_plogp_neg.
  - intros a. lra.
  - intros a b H1 H2. apply bool_decide_eq_false in H1.
    apply bool_decide_eq_true in H2. apply bool_decide_eq_true. lra.
Qed.

(** * Properties of [list_sort] *)

Section Sorting.

Context {A K : Type} (lt : K -> K -> bool) (key : A -> K).

Lemma sort_insert_perm (x : A) (l : list A) : sort_insert lt key x l ≡ₚ x :: l.
Proof.
  induction l as [|y l IH]; simpl; [done |].
  destruct (lt (key y) (key x)); [| done].
  rewrite IH. apply Permutation_swap.
Qed.

Lemma list_sort_ext {K'} (lt' : K' -> K' -> bool) (key' : A -> K')
    (l : list A) :
  (∀ x y, lt (key y) (key x) = lt' (key' y) (key' x)) ->
  list_sort lt key l = list_sort lt' key' l.
Proof.
  intros Hext. unfold list_sort. induction l as [|x l IH]; simpl; [done |].
  rewrite IH. generalize (foldr (sort_insert lt' key') [] l). intros s.
  induction s as [|y s IHs]; simpl; [done |].
  by rewrite Hext, IHs.
Qed.

Lemma list_sort_perm (l : list A) : list_sort lt key l ≡ₚ l.
Proof.
  unfold list_sort. induction l as [|x l IH]; simpl; [done |].
  by rewrite sort_insert_perm, IH.
Qed.

(** An element moves in front of no element of its own tie class. *)
Lemma sort_insert_filter (P : A -> Prop) `{!∀ x, Decision (P x)} (x : A)
    (l : list A) :
  (∀ y, P x -> P y -> lt (key y) (key x) = false) ->
  filter P (sort_insert lt key x l) = filter P (x :: l).
Proof.
  intros Htie. induction l as [|y l IH]; simpl; [done |].
  destruct (lt (key y) (key x)) eqn:Hlt; [| done].
  rewrite filter_cons, IH, !filter_cons.
  destruct (decide (P y)) as [Hy|Hy]; [| done].
  destruct (decide (P x)) as [Hx|Hx]; [| done].
  rewrite Htie in Hlt by done. discriminate Hlt.
Qed.

Lemma list_sort_filter (P : A -> Prop) `{!∀ x, Decision (P x)} (l : list A) :
  (∀ x y, P x -> P y -> lt (key y) (key x) = false) ->
  filter P (list_sort lt key l) = filter P l.
Proof.
  intros Htie. unfold list_sort. induction l as [|x l IH]; simpl; [done |].
  rewrite sort_insert_filter by (intros y; apply Htie).
  by rewrite !filter_cons, IH.
Qed.

Hypothesis lt_asym : ∀ a b, lt a b = true -> lt b a = false.
Hypothesis lt_negtrans :
  ∀ a b c, lt a b = false -> lt b c = false -> lt a c = false.

Lemma sort_insert_sorted (x : A) (l : list A) :
  StronglySorted (key_le lt key) l ->
  StronglySorted (key_le lt key) (sort_insert lt key x l).
Proof.
  induction 1 as [|y l Hl IH Hy]; simpl.
  - repeat constructor.
  - destruct (lt (key y) (key x)) eqn:Hlt.
    + constructor; [done |].
      rewrite sort_insert_perm. constructor; [| done].
      by apply lt_asym.
    + constructor; [by constructor |].
      constructor; [done |].
      eapply Forall_impl; [exact Hy |].
      intros z Hz. unfold key_le in *. by eapply lt_negtrans.
Qed.

Lemma list_sort_sorted (l : list A) :
  StronglySorted (key_le lt key) (list_sort lt key l).
Proof.
  unfold list_sort. induction l as [|x l IH]; simpl.
  - constructor.
  - by apply sort_insert_sorted.
Qed.

Lemma lt_irrefl (a : K) : lt a a = false.
Proof.
  destruct (lt a a) eqn:H; [| done].
  pose proof (lt_asym a a H). congruence.
Qed.

(** A list is determined by its elements, the order of the keys and the
    order inside every tie class: whatever stable sort [list.sort] runs,
    it returns the list of [list_sort]. *)
Lemma sorted_stable_unique (l1 l2 : list A) :
  l1 ≡ₚ l2 ->
  StronglySorted (key_le lt key) l1 ->
  StronglySorted (key_le lt key) l2 ->
  (∀ z, filter ((key_tie lt key z)) l1 = filter ((key_tie lt key z)) l2) ->
  l1 = l2.
Proof.
  revert l2. induction l1 as [|x l1 IH]; intros l2 Hperm Hs1 Hs2 Hties.
  - by apply Permutation_nil_l in Hperm.
  - destruct l2 as [|y l2]; [by apply Permutation_nil_r in Hperm |].
    apply StronglySorted_cons in Hs1 as [Hx Hs1].
    apply StronglySorted_cons in Hs2 as [Hy Hs2].
    assert (key_le lt key x y) as Hxy.
    { assert (y ∈ x :: l1) as Hin by (rewrite Hperm; left).
      apply elem_of_cons in Hin as [->|Hin]; [apply lt_irrefl |].
      by eapply Forall_forall in Hx. }
    assert (key_le lt key y x) as Hyx.
    { assert (x ∈ y :: l2) as Hin by (rewrite <- Hperm; left).
      apply elem_of_cons in Hin as [->|Hin]; [apply lt_irrefl |].
      by eapply Forall_forall in Hy. }
    assert (x = y) as <-.
    { pose proof (Hties x) as H. rewrite !filter_cons in H.
      rewrite decide_True in H by (split; apply lt_irrefl).
      rewrite decide_True in H by done. by injection H. }
    f_equal. apply IH; [by eapply Permutation_cons_inv | done | done |].
    intros z. specialize (Hties z). rewrite !filter_cons in Hties.
    destruct (decide ((key_tie lt key z) x)); [by injection Hties | done].
Qed.

End Sorting.

(** * Properties of [rank_guesses] *)

Section Ranking.

Context {N : PyNum}.

Lemma entropies_loop_returns (candidates pool : list str)
    (acc : list (str * num)) :
  Forall (λ w, Forall (λ c, (length w <= length c)%nat) candidates) pool ->
  ∃ scored, scores candidates pool scored ∧
    for_each
      (λ word entropies,
         e ← calculate_entropy word candidates;
         Ok (entropies ++ [(word, e)]))
      pool acc
    = Ok (acc ++ scored).
Proof.
  intros H. revert acc. induction H as [|w pool Hw _ IH]; intros acc; simpl.
  - exists []. split; [constructor | by rewrite app_nil_r].
  - destruct (calculate_entropy_returns w candidates Hw) as (fbs & _ & He).
    rewrite He. simpl.
    destruct (IH (acc ++ [(w, entropy_sum (len candidates) fzero
                                 (dict_values (tally [] fbs)))]))
      as (scored & Hsc & ->).
    exists ((w, entropy_sum (len candidates) fzero
                  (dict_values (tally [] fbs))) :: scored).
    split.
    + unfold scores. constructor; [by split | exact Hsc].
    + by rewrite <- app_assoc.
Qed.

Lemma rank_guesses_returns (candidates pool : list str) (topn : Z) :
  Forall (λ w, Forall (λ c, (length w <= length c)%nat) candidates) pool ->
  ∃ scored, scores candidates pool scored ∧
    rank_guesses candidates pool topn
    = Ok (slice_to (list_sort fltb (λ x, fneg x.2) scored) topn).
Proof.
  intros H. unfold rank_guesses.
  destruct (entropies_loop_returns candidates pool [] H) as (scored & Hsc & ->).
  by exists scored.
Qed.

(** The top entry of a ranking of a non-empty pool is a word of the
    pool. *)
Lemma rank_guesses_top (candidates pool : list str) :
  pool ≠ [] ->
  Forall (λ w, Forall (λ c, (length w <= length c)%nat) candidates) pool ->
  ∃ guess ent, rank_guesses candidates pool 1 = Ok [(guess, ent)] ∧
    guess ∈ pool.
Proof.
  intros Hne H.
  destruct (rank_guesses_returns candidates pool 1 H) as (scored & Hsc & ->).
  pose proof (list_sort_perm fltb (λ x : str * num, fneg x.2) scored) as Hperm.
  destruct (list_sort fltb (λ x : str * num, fneg x.2) scored)
    as [|[guess ent] sorted] eqn:Hsort.
  - apply Permutation_nil_l in Hperm. subst scored.
    apply Forall2_nil_inv_r in Hsc. done.
  - exists guess, ent. split; [done |].
    assert ((guess, ent) ∈ scored) as Hin by (rewrite <- Hperm; left).
    apply list_elem_of_lookup in Hin as [i Hi].
    destruct (Forall2_lookup_r _ _ _ _ _ Hsc Hi) as (w & Hw & Heq & _).
    simpl in Heq. subst w. by eapply list_elem_of_lookup_2.
Qed.

End Ranking.

(** * Properties of the vocabulary *)

Lemma foldl_insert_lookup {V} (f : Z -> V) (ns : list Z) (m : gmap Z V) (k : Z) :
  foldl (λ m n, <[n := f n]> m) m ns !! k
  = if decide (k ∈ ns) then Some (f k) else m !! k.
Proof.
  revert m. induction ns as [|n ns IH]; intros m; simpl; [done |].
  rewrite IH. destruct (decide (k ∈ ns)) as [Hin|Hnin].
  - rewrite decide_True; [done | by right].
  - destruct (decide (n = k)) as [->|Hne].
    + rewrite lookup_insert_eq. rewrite decide_True; [done | left].
    + rewrite lookup_insert_ne by done.
      rewrite decide_False; [done |]. rewrite elem_of_cons.
      intros [Heq|Hin]; [by subst | done].
Qed.

Lemma vocabulary_lookup (english_words_set : list str) (n : Z) :
  VOCABULARY_BY_LENGTH english_words_set !! n
  = if decide (MIN_LEN <= n <= MAX_LEN)
    then Some (words_of_length english_words_set n) else None.
Proof.
  unfold VOCABULARY_BY_LENGTH, load_vocab.
  rewrite (foldl_insert_lookup
    (λ n, take VOCAB_CAP (filter (λ w, len w = n)
            (filter (λ w, isalpha w = true) english_words_set)))).
  destruct (decide (MIN_LEN <= n <= MAX_LEN)) as [Hn|Hn].
  - rewrite decide_True; [done |].
    apply elem_of_seqZ. unfold MIN_LEN, MAX_LEN in *. lia.
  - rewrite decide_False; [done |].
    rewrite elem_of_seqZ. unfold MIN_LEN, MAX_LEN in *. lia.
Qed.

Lemma vocabulary_word_length (english_words_set : list str) (n : Z)
    (full_vocab : list str) :
  VOCABULARY_BY_LENGTH english_words_set !! n = Some full_vocab ->
  Forall (λ w, len w = n) full_vocab.
Proof.
  rewrite vocabulary_lookup. case_decide; [| done].
  intros [= <-]. apply Forall_forall. intros w Hw.
  unfold words_of_length in Hw. apply elem_of_take in Hw as (i & Hi & _).
  apply list_elem_of_lookup_2 in Hi. by apply list_elem_of_filter in Hi as [? _].
Qed.

(** * Properties of [play_wordle] *)

Section Play.

Context {N : PyNum}.

Lemma feedback_self (guess : str) :
  feedback guess guess = Ok (replicate (length guess) GREEN).
Proof.
  destruct (feedback_returns guess guess ltac:(lia)) as (fb & Hfb & _).
  rewrite Hfb. f_equal. by apply (feedback_all_green guess guess).
Qed.

Lemma same_length_le (length' : Z) (w : str) (candidates : list str) :
  len w = length' -> Forall (λ c, len c = length') candidates ->
  Forall (λ c, (length w <= length c)%nat) candidates.
Proof.
  intros Hw Hall. eapply Forall_impl; [exact Hall |].
  intros c Hc. unfold len in *. simpl. lia.
Qed.

(** With the target among candidates of one length, the loop returns in
    the solved branch after at most as many turns as there are
    candidates, given that much fuel. *)
Lemma play_loop_solves (fuel : nat) (length' : Z) (target : str)
    (verbose : bool) (max_candidates turns : Z) (candidates : list str)
    (out : list message) :
  Forall (λ w, len w = length') candidates ->
  target ∈ candidates ->
  (length candidates <= fuel)%nat ->
  max_candidates ≠ 0 ->
  ∃ out' n,
    play_loop fuel length' target verbose max_candidates turns candidates out
    = Some (out ++ out' ++ [MsgSolved target (turns + n)], Ok (turns + n)) ∧
    Forall turn_message out' ∧
    1 <= n <= len candidates.
Proof.
  intros Hlen Htarget Hfuel Hmax.
  revert turns candidates out Hlen Htarget Hfuel.
  induction fuel as [|fuel IH]; intros turns candidates out Hlen Htarget Hfuel.
  { destruct candidates; [by apply elem_of_nil in Htarget | simpl in Hfuel; lia]. }
  assert (len target = length') as Htlen.
  { by eapply Forall_forall in Hlen. }
  simpl.
  destruct (rank_guesses_top candidates candidates) as (guess & ent & -> & Hguess).
  { intros ->. by apply elem_of_nil in Htarget. }
  { apply Forall_forall. intros w Hw. eapply same_length_le; [| done].
    by eapply Forall_forall in Hlen. }
  assert (len guess = length') as Hglen.
  { by eapply Forall_forall in Hlen. }
  assert (length guess = length target) as Hgt by (unfold len in *; lia).
  destruct (feedback_returns guess target ltac:(lia)) as (fb & Hfb & _).
  rewrite Hfb.
  assert (Z.to_nat length' = length guess) as Hnat by (unfold len in *; lia).
  rewrite Hnat.
  pose proof (feedback_all_green guess target fb Hgt Hfb) as Hgreen.
  destruct (decide (fb = replicate (length guess) GREEN)) as [Hsolved|Hnot].
  - exists (if verbose then [MsgTurn (turns + 1) guess fb ent] else []), 1.
    split; [| split].
    + destruct verbose; [by rewrite <- app_assoc | by rewrite app_nil_l].
    + destruct verbose; by repeat constructor.
    + assert (0 < len candidates); [| lia].
      destruct candidates; [by apply elem_of_nil in Htarget | unfold len; simpl; lia].
  - rewrite filter_candidates_returns by (by eapply same_length_le).
    set (kept := filter (λ w, feedback guess w = Ok fb) candidates).
    assert (target ∈ kept) as Hkept.
    { apply list_elem_of_filter. by split. }
    assert (length kept < length candidates)%nat as Hshrink.
    { apply (length_filter_lt _ _ guess); [done |].
      rewrite feedback_self. congruence. }
    assert (Forall (λ w, len w = length') kept) as Hklen.
    { apply Forall_forall. intros w Hw. apply list_elem_of_filter in Hw as [_ Hw].
      by eapply Forall_forall in Hlen. }
    destruct kept as [|k kept'] eqn:Hk; [by apply elem_of_nil in Hkept |].
    rewrite <- Hk in *.
    unfold visualize_candidates. rewrite decide_False by done.
    destruct verbose.
    + destruct (IH (turns + 1) kept
                  ((out ++ [MsgTurn (turns + 1) guess fb ent]) ++
                   [MsgProgress (turns + 1) (len kept) max_candidates]))
        as (out' & n & -> & Hout' & Hn); [done | done | lia |].
      exists ([MsgTurn (turns + 1) guess fb ent;
               MsgProgress (turns + 1) (len kept) max_candidates] ++ out'), (n + 1).
      split; [| split].
      * replace (turns + (n + 1)) with (turns + 1 + n) by lia.
        by rewrite <- !app_assoc.
      * apply Forall_app. split; [by repeat constructor | done].
      * unfold len in *. lia.
    + destruct (IH (turns + 1) kept out) as (out' & n & -> & Hout' & Hn);
        [done | done | lia |].
      exists out', (n + 1). split; [| split].
      * by replace (turns + (n + 1)) with (turns + 1 + n) by lia.
      * done.
      * unfold len in *. lia.
Qed.

Lemma turn_guesses_app (out1 out2 : list message) :
  turn_guesses (out1 ++ out2) = turn_guesses out1 ++ turn_guesses out2.
Proof. apply omap_app. Qed.

(** The loop in verbose mode, with everything that its output shows. *)
Lemma play_loop_trace (fuel : nat) (length' : Z) (target : str)
    (max_candidates bound turns : Z) (candidates : list str)
    (out : list message) :
  Forall (λ w, len w = length') candidates ->
  target ∈ candidates ->
  (length candidates <= fuel)%nat ->
  max_candidates ≠ 0 ->
  len candidates <= bound ->
  ∃ out' n,
    play_loop fuel length' target true max_candidates turns candidates out
    = Some (out ++ out' ++ [MsgSolved target (turns + n)], Ok (turns + n)) ∧
    len (turn_guesses out') = n ∧
    NoDup (turn_guesses out') ∧
    Forall (λ g, g ∈ candidates) (turn_guesses out') ∧
    last (turn_guesses out') = Some target ∧
    Forall (truthful target) out' ∧
    Forall (progress_below bound max_candidates) out'.
Proof.
  intros Hlen Htarget Hfuel Hmax Hbound.
  revert turns candidates out Hlen Htarget Hfuel Hbound.
  induction fuel as [|fuel IH];
    intros turns candidates out Hlen Htarget Hfuel Hbound.
  { destruct candidates; [by apply elem_of_nil in Htarget | simpl in Hfuel; lia]. }
  assert (len target = length') as Htlen.
  { by eapply Forall_forall in Hlen. }
  simpl.
  destruct (rank_guesses_top candidates candidates) as (guess & ent & -> & Hguess).
  { intros ->. by apply elem_of_nil in Htarget. }
  { apply Forall_forall. intros w Hw. eapply same_length_le; [| done].
    by eapply Forall_forall in Hlen. }
  assert (len guess = length') as Hglen.
  { by eapply Forall_forall in Hlen. }
  assert (length guess = length target) as Hgt by (unfold len in *; lia).
  destruct (feedback_returns guess target ltac:(lia)) as (fb & Hfb & _).
  rewrite Hfb.
  assert (Z.to_nat length' = length guess) as Hnat by (unfold len in *; lia).
  rewrite Hnat.
  pose proof (feedback_all_green guess target fb Hgt Hfb) as Hgreen.
  destruct (decide (fb = replicate (length guess) GREEN)) as [Hsolved|Hnot].
  - exists [MsgTurn (turns + 1) guess fb ent], 1.
    apply Hgreen in Hsolved as Heq. subst guess.
    split; [by rewrite <- app_assoc |]. simpl.
    split; [done |]. split; [apply NoDup_singleton |].
    split; [by repeat constructor |]. split; [done |].
    split; by repeat constructor.
  - rewrite filter_candidates_returns by (by eapply same_length_le).
    set (kept := filter (λ w, feedback guess w = Ok fb) candidates).
    assert (target ∈ kept) as Hkept.
    { apply list_elem_of_filter. by split. }
    assert (guess ∉ kept) as Hgone.
    { unfold kept. rewrite list_elem_of_filter, feedback_self.
      intros [Heq _]. congruence. }
    assert (length kept < length candidates)%nat as Hshrink.
    { apply (length_filter_lt _ _ guess); [done |].
      rewrite feedback_self. congruence. }
    assert (Forall (λ w, len w = length') kept) as Hklen.
    { apply Forall_forall. intros w Hw. apply list_elem_of_filter in Hw as [_ Hw].
      by eapply Forall_forall in Hlen. }
    destruct kept as [|k kept'] eqn:Hk; [by apply elem_of_nil in Hkept |].
    rewrite <- Hk in *.
    unfold visualize_candidates. rewrite decide_False by done.
    destruct (IH (turns + 1) kept
                ((out ++ [MsgTurn (turns + 1) guess fb ent]) ++
                 [MsgProgress (turns + 1) (len kept) max_candidates]))
      as (out' & n & -> & Hn & Hnd & Hin & Hlast & Htruth & Hprog);
      [done | done | lia | unfold len in *; lia |].
    exists ([MsgTurn (turns + 1) guess fb ent;
             MsgProgress (turns + 1) (len kept) max_candidates] ++ out'),
           (n + 1).
    split; [| split; [| split; [| split; [| split; [| split]]]]].
    + replace (turns + (n + 1)) with (turns + 1 + n) by lia.
      by rewrite <- !app_assoc.
    + simpl. unfold len in *. simpl. lia.
    + simpl. apply NoDup_cons. split; [| done].
      intros Hg. eapply Forall_forall in Hin; [| exact Hg]. done.
    + simpl. constructor; [done |].
      eapply Forall_impl; [exact Hin |]. intros g Hg. simpl in Hg.
      unfold kept in Hg. by apply list_elem_of_filter in Hg as [_ ?].
    + simpl. destruct (turn_guesses out') as [|g gs] eqn:Hgs; [| done].
      unfold len in Hn. simpl in Hn. discriminate Hlast.
    + constructor; [done |]. constructor; [done |]. done.
    + constructor; [done |]. constructor; [| done]. simpl.
      split; [done |].
      assert (0 < length kept)%nat by (rewrite Hk; simpl; lia).
      unfold len in *. lia.
Qed.

(** The returned value does not depend on [verbose]. *)
Lemma play_loop_verbose (fuel : nat) (length' : Z) (target : str)
    (max_candidates turns : Z) (candidates : list str)
    (out1 out2 : list message) :
  max_candidates ≠ 0 ->
  snd <$> play_loop fuel length' target true max_candidates turns candidates out1
  = snd <$> play_loop fuel length' target false max_candidates turns candidates
              out2.
Proof.
  intros Hmax. revert turns candidates out1 out2.
  induction fuel as [|fuel IH]; intros turns candidates out1 out2; [done |].
  simpl.
  destruct (rank_guesses candidates candidates 1) as [e|[|[guess ent] r]];
    [done | done |].
  destruct (feedback guess target) as [e|fb]; [done |].
  destruct (decide (fb = replicate (Z.to_nat length') GREEN)); [done |].
  destruct (filter_candidates candidates guess fb) as [e|[|c cs]];
    [done | done |].
  unfold visualize_candidates. rewrite decide_False by done. apply IH.
Qed.

(** Without [verbose] the loop prints one line at most: the last. *)
Lemma play_loop_quiet (fuel : nat) (length' : Z) (target : str)
    (max_candidates turns : Z) (candidates : list str)
    (out out' : list message) (r : result Z) :
  play_loop fuel length' target false max_candidates turns candidates out
  = Some (out', r) ->
  ∃ final, out' = out ++ final ∧ (length final <= 1)%nat.
Proof.
  revert turns candidates.
  induction fuel as [|fuel IH]; intros turns candidates; [discriminate 1 |].
  simpl.
  destruct (rank_guesses candidates candidates 1) as [e|[|[guess ent] rk]].
  1, 2: intros [= <- _]; exists []; split; [by rewrite app_nil_r | simpl; lia].
  destruct (feedback guess target) as [e|fb].
  { intros [= <- _]. exists []. split; [by rewrite app_nil_r | simpl; lia]. }
  destruct (decide (fb = replicate (Z.to_nat length') GREEN)).
  { intros [= <- _]. eexists [_]. split; [done | simpl; lia]. }
  destruct (filter_candidates candidates guess fb) as [e|[|c cs]].
  - intros [= <- _]. exists []. split; [by rewrite app_nil_r | simpl; lia].
  - intros [= <- _]. eexists [_]. split; [done | simpl; lia].
  - apply IH.
Qed.

(** Whatever [verbose] is, the loop returns the number of turns of the
    run that prints them, and that run ends on the target. *)
Lemma play_loop_solved (fuel : nat) (length' : Z) (target : str)
    (verbose : bool) (max_candidates : Z) (candidates : list str) :
  Forall (λ w, len w = length') candidates ->
  target ∈ candidates ->
  (length candidates <= fuel)%nat ->
  max_candidates ≠ 0 ->
  ∃ out log turns,
    play_loop fuel length' target verbose max_candidates 0 candidates []
    = Some (out ++ [MsgSolved target turns], Ok turns) ∧
    Forall turn_message out ∧
    1 <= turns <= len candidates ∧
    play_loop fuel length' target true max_candidates 0 candidates []
    = Some (log ++ [MsgSolved target turns], Ok turns) ∧
    len (turn_guesses log) = turns ∧
    NoDup (turn_guesses log) ∧
    Forall (λ g, g ∈ candidates) (turn_guesses log) ∧
    last (turn_guesses log) = Some target ∧
    Forall (truthful target) log ∧
    Forall (progress_below (len candidates) max_candidates) log.
Proof.
  intros Hlen Htarget Hfuel Hmax.
  destruct (play_loop_solves fuel length' target verbose max_candidates 0
              candidates [] Hlen Htarget Hfuel Hmax)
    as (out & n & Hrun & Hout & Hn).
  destruct (play_loop_trace fuel length' target max_candidates (len candidates)
              0 candidates [] Hlen Htarget Hfuel Hmax ltac:(lia))
    as (log & m & Hlog & Hm & Hnd & Hin & Hlast & Htruth & Hprog).
  assert (m = n) as ->.
  { destruct verbose.
    - rewrite Hlog in Hrun. injection Hrun as _ Heq. lia.
    - pose proof (play_loop_verbose fuel length' target max_candidates 0
                    candidates [] [] Hmax) as Heq.
      rewrite Hlog, Hrun in Heq. simpl in Heq. injection Heq as Heq. lia. }
  exists out, log, n. rewrite Hrun, Hlog. simpl.
  split; [done |]. split; [done |]. split; [done |]. split; [done |].
  split; [lia |]. done.
Qed.

End Play.

(** * Main results *)

(** C1. For candidates of the guess's length, [filter_candidates]
    returns exactly the members of [candidates], in order, whose
    feedback against the guess equals the pattern; the result is a
    sublist of [candidates]; and a target among the candidates survives
    the filter on its own feedback. *)
Theorem filter_candidates_sound (candidates : list str) (guess fb : str) :
  Forall (λ w, length w = length guess) candidates ->
  ∃ kept, filter_candidates candidates guess fb = Ok kept ∧
    kept = filter (λ w, feedback guess w = Ok fb) candidates ∧
    (∀ w, w ∈ kept ↔ w ∈ candidates ∧ feedback guess w = Ok fb) ∧
    sublist kept candidates ∧
    ∀ target, target ∈ candidates ->
      ∃ p kept', feedback guess target = Ok p ∧
        filter_candidates candidates guess p = Ok kept' ∧ target ∈ kept'.
Proof.
  intros Hlen.
  assert (Forall (λ w, (length guess <= length w)%nat) candidates) as Hle.
  { eapply Forall_impl; [exact Hlen |]. simpl. lia. }
  eexists. split; [by apply filter_candidates_returns |].
  split; [done |]. split; [| split].
  - intros w. rewrite list_elem_of_filter. tauto.
  - apply sublist_filter.
  - intros target Hin.
    assert (length guess <= length target)%nat as Ht.
    { by eapply Forall_forall in Hle. }
    destruct (feedback_returns guess target Ht) as (p & Hp & _).
    exists p. eexists. split; [done |].
    split; [by apply filter_candidates_returns |].
    apply list_elem_of_filter. by split.
Qed.

Lemma filter_candidates_sound_witness :
  Forall (λ w, length w = length (py "arise"))
    [py "raise"; py "arise"; py "aisle"] ∧
  ∃ kept,
    filter_candidates [py "raise"; py "arise"; py "aisle"] (py "arise") (py "yyggg")
    = Ok kept ∧ py "raise" ∈ kept.
Proof.
  assert (Forall (λ w, length w = length (py "arise"))
            [py "raise"; py "arise"; py "aisle"]) as Hlen.
  { repeat constructor. }
  split; [exact Hlen |].
  destruct (filter_candidates_sound
              [py "raise"; py "arise"; py "aisle"] (py "arise") (py "yyggg") Hlen)
    as (kept & Hk & _ & Hin & _).
  exists kept. split; [exact Hk |]. apply Hin. split.
  - left.
  - reflexivity.
Defined.

(** C2. For words of equal length, [feedback] returns a pattern of the
    length of the guess; the pattern is a function of the two words; and
    for every letter the positions of the guess that hold it and are
    marked Correct or Present are no more than its occurrences in the
    target. *)
Theorem feedback_contract (g t : str) :
  length g = length t ->
  ∃ fb, feedback g t = Ok fb ∧
    length fb = length g ∧
    (∀ r1 r2, feedback g t = r1 -> feedback g t = r2 -> r1 = r2) ∧
    ∀ L, (marked_count L g fb <= count t L)%nat.
Proof.
  intros Hlen.
  destruct (feedback_returns g t ltac:(lia)) as (fb & Hfb & Hl & _ & Hcnt).
  exists fb. repeat split; try done. congruence.
Qed.

Lemma feedback_contract_witness :
  length (py "speed") = length (py "abide") ∧
  ∃ fb, feedback (py "speed") (py "abide") = Ok fb ∧
    length fb = 5%nat ∧
    (marked_count "e" (py "speed") fb <= 1)%nat.
Proof.
  split; [reflexivity |].
  destruct (feedback_contract (py "speed") (py "abide") eq_refl)
    as (fb & Hfb & Hl & _ & Hcnt).
  exists fb. split; [exact Hfb |]. split; [exact Hl |].
  exact (Hcnt "e"%char).
Defined.

(** C6. The worked example: against the target "raise" the guess
    "arise" is marked Present, Present, Correct, Correct, Correct. *)
Theorem feedback_worked_example :
  feedback (py "arise") (py "raise")
  = Ok [YELLOW; YELLOW; GREEN; GREEN; GREEN] ∧
  [YELLOW; YELLOW; GREEN; GREEN; GREEN] = py "yyggg".
Proof. split; reflexivity. Qed.

(** C10. On the empty candidate list [calculate_entropy] returns the
    initial [0]: the loop over the pattern counts has no iteration, so
    the division by [total = 0] is never reached and no
    [ZeroDivisionError] is raised. *)
Theorem calculate_entropy_empty {N : PyNum} (guess : str) :
  calculate_entropy guess [] = Ok fzero ∧
  for_each (count_pattern guess) [] [] = Ok [] ∧
  py_truediv 1 (len ([] : list str)) = Raise ZeroDivisionError.
Proof. repeat split. Qed.

(** C5. Over every number model that satisfies the sign laws of
    [PyNumLaws], for a non-empty list of candidates of the guess's
    length the entropy that [calculate_entropy] returns is not below 0:
    it is 0 or above 0, and it is 0 exactly when all candidates give the
    same feedback against the guess. *)
Theorem calculate_entropy_nonneg {N : PyNum} {L : PyNumLaws}
    (guess : str) (candidates : list str) :
  candidates ≠ [] ->
  Forall (λ w, length w = length guess) candidates ->
  ∃ e, calculate_entropy guess candidates = Ok e ∧
    fltb e fzero = false ∧
    (e = fzero ∨ fltb fzero e = true) ∧
    (e = fzero ↔
     ∀ c1 c2, c1 ∈ candidates -> c2 ∈ candidates ->
       feedback guess c1 = feedback guess c2).
Proof.
  intros Hne Hlen. apply calculate_entropy_sign; [exact Hne |].
  eapply Forall_impl; [exact Hlen |]. simpl. lia.
Qed.

Lemma calculate_entropy_nonneg_witness :
  [py "raise"; py "arise"] ≠ [] ∧
  Forall (λ w, length w = length (py "arise")) [py "raise"; py "arise"] ∧
  ∃ e : R,
    calculate_entropy (N := real_num) (py "arise") [py "raise"; py "arise"]
    = Ok e ∧ (0 < e)%R.
Proof.
  assert ([py "raise"; py "arise"] ≠ []) as Hne by discriminate.
  assert (Forall (λ w, length w = length (py "arise"))
            [py "raise"; py "arise"]) as Hlen by repeat constructor.
  split; [exact Hne |]. split; [exact Hlen |].
  destruct (calculate_entropy_nonneg (N := real_num) (L := real_num_laws)
              (py "arise") [py "raise"; py "arise"] Hne Hlen)
    as (e & He & _ & [Hzero|Hpos] & Hiff).
  - exfalso.
    pose proof (proj1 Hiff Hzero (py "raise") (py "arise")
                  ltac:(left) ltac:(right; left)) as Hsame.
    vm_compute in Hsame. discriminate Hsame.
  - exists e. split; [exact He |]. simpl in Hpos.
    by apply bool_decide_eq_true in Hpos.
Defined.

(** C4. For words of one length and [0 <= topn], over numbers whose
    [<] is a strict weak order, [rank_guesses] pairs every word of the
    pool with its entropy and returns the first [topn] entries of the
    list that holds these pairs in descending order of entropy, pairs
    of tied entropy in the order of the pool.  That list is the only
    one with these properties, and the result is a function of the
    arguments. *)
Theorem rank_guesses_sorted {N : PyNum} {O : PyNumOrder}
    (candidates pool : list str) (topn : Z) :
  0 <= topn ->
  Forall (λ w, Forall (λ c, length w = length c) candidates) pool ->
  ∃ scored sorted,
    scores candidates pool scored ∧
    rank_guesses candidates pool topn = Ok (take (Z.to_nat topn) sorted) ∧
    sorted ≡ₚ scored ∧
    StronglySorted entropy_ge sorted ∧
    (∀ e, filter (entropy_tie e) sorted = filter (entropy_tie e) scored) ∧
    (∀ sorted',
       sorted' ≡ₚ scored ->
       StronglySorted entropy_ge sorted' ->
       (∀ e, filter (entropy_tie e) sorted' = filter (entropy_tie e) scored) ->
       sorted' = sorted) ∧
    (∀ r1 r2,
       rank_guesses candidates pool topn = r1 ->
       rank_guesses candidates pool topn = r2 -> r1 = r2).
Proof.
  intros Htop Hlen.
  assert (Forall (λ w, Forall (λ c, (length w <= length c)%nat) candidates) pool)
    as Hle.
  { eapply Forall_impl; [exact Hlen |]. intros w Hw.
    eapply Forall_impl; [exact Hw |]. simpl. lia. }
  destruct (rank_guesses_returns candidates pool topn Hle)
    as (scored & Hsc & Hrank).
  rewrite (list_sort_ext _ _ (flip fltb) snd) in Hrank
    by (intros x y; apply fltb_fneg).
  set (sorted := list_sort (flip fltb) snd scored) in *.
  assert (∀ a b, flip fltb a b = true -> flip fltb b a = false) as Hasym.
  { intros a b. apply fltb_asym. }
  assert (∀ a b c, flip fltb a b = false -> flip fltb b c = false ->
                   flip fltb a c = false) as Hnegtrans.
  { intros a b c H1 H2. unfold flip in *. by eapply fltb_negtrans. }
  assert (sorted ≡ₚ scored) as Hperm by apply list_sort_perm.
  assert (StronglySorted entropy_ge sorted) as Hsorted.
  { by apply (list_sort_sorted (flip fltb) snd). }
  assert (∀ e, filter (entropy_tie e) sorted = filter (entropy_tie e) scored)
    as Hties.
  { intros e. apply list_sort_filter.
    intros x y [Hx _] [_ Hy]. unfold flip. by eapply fltb_negtrans. }
  exists scored, sorted.
  split; [exact Hsc |]. split; [| split; [| split; [| split; [| split]]]];
    try done.
  - rewrite Hrank. unfold slice_to. by rewrite decide_True.
  - intros sorted' Hperm' Hsorted' Hties'.
    apply (sorted_stable_unique (flip fltb) snd); try done.
    + by rewrite Hperm.
    + intros z. exact (eq_trans (Hties' z.2) (eq_sym (Hties z.2))).
  - congruence.
Qed.

Lemma rank_guesses_sorted_witness :
  0 <= 1 ∧
  Forall (λ w, Forall (λ c, length w = length c) [py "raise"; py "arise"])
    [py "raise"; py "arise"] ∧
  ∃ sorted : list (str * R),
    rank_guesses (N := real_num) [py "raise"; py "arise"]
      [py "raise"; py "arise"] 1
    = Ok (take 1 sorted) ∧
    StronglySorted (entropy_ge (N := real_num)) sorted.
Proof.
  assert (0 <= 1) as Htop by lia.
  assert (Forall (λ w, Forall (λ c, length w = length c)
                         [py "raise"; py "arise"])
            [py "raise"; py "arise"]) as Hlen by repeat constructor.
  split; [exact Htop |]. split; [exact Hlen |].
  destruct (rank_guesses_sorted (N := real_num) (O := real_num_order)
              [py "raise"; py "arise"] [py "raise"; py "arise"] 1 Htop Hlen)
    as (scored & sorted & _ & Hrank & _ & Hsorted & _).
  exists sorted. split; [exact Hrank | exact Hsorted].
Defined.

(** C9. For a guess and a target of the session's length, the feedback
    is the all-green pattern exactly when the guess is the target, and
    an iteration of the loop of [play_wordle] that plays this guess
    returns its turn number exactly when the guess is the target. *)
Theorem solved_test_iff_target {N : PyNum} (length' : Z) (guess target : str) :
  len guess = length' -> len target = length' ->
  ∃ fb, feedback guess target = Ok fb ∧
    (fb = replicate (Z.to_nat length') GREEN ↔ guess = target) ∧
    ∀ verbose max_candidates turns candidates out ent rest,
      0 <= turns ->
      rank_guesses candidates candidates 1 = Ok ((guess, ent) :: rest) ->
      (∃ out',
         play_loop 1 length' target verbose max_candidates turns candidates out
         = Some (out', Ok (turns + 1)))
      ↔ guess = target.
Proof.
  intros Hg Ht.
  assert (length guess = length target) as Hlen by (unfold len in *; lia).
  destruct (feedback_returns guess target ltac:(lia)) as (fb & Hfb & _).
  assert (Z.to_nat length' = length guess) as Hnat by (unfold len in *; lia).
  pose proof (feedback_all_green guess target fb Hlen Hfb) as Hgreen.
  exists fb. split; [exact Hfb |]. rewrite Hnat. split; [exact Hgreen |].
  intros verbose maxc turns candidates out ent rest Hturns Hrank.
  simpl. rewrite Hrank, Hfb, Hnat.
  destruct (decide (fb = replicate (length guess) GREEN)) as [Hs|Hs].
  - split; [intros _; by apply Hgreen | intros _; by eexists].
  - split; [| intros Heq; by apply Hgreen in Heq].
    intros [out' Hout]. exfalso.
    destruct (filter_candidates candidates guess fb) as [e|[|c cs]];
      [discriminate Hout | injection Hout; lia |].
    destruct verbose; [| discriminate Hout].
    destruct (visualize_candidates _ _ _); discriminate Hout.
Qed.

Lemma solved_test_iff_target_witness :
  len (py "apple") = 5 ∧ len (py "apple") = 5 ∧
  ∃ fb, feedback (py "apple") (py "apple") = Ok fb ∧
        fb = replicate (Z.to_nat 5) GREEN.
Proof.
  split; [reflexivity |]. split; [reflexivity |].
  destruct (solved_test_iff_target (N := real_num) 5 (py "apple") (py "apple")
              eq_refl eq_refl) as (fb & Hfb & Hiff & _).
  exists fb. split; [exact Hfb |]. apply Hiff. reflexivity.
Defined.

(** C3. With word length 5 and a target that is in the vocabulary for
    that length, [play_wordle] returns, given as much fuel as there are
    candidates, in the solved branch: the value returned is the number
    of turns, between 1 and the initial number of candidates, and the
    message of the exhausted branch is never printed.  The run ended on
    a guess that got the all-green pattern: the run that prints its
    turns returns the same number, and its log shows that many guesses,
    all of them vocabulary words and no two the same, each with its
    feedback against the target, the last of them the target itself,
    whose feedback is the all-green pattern. *)
Theorem play_wordle_solves {N : PyNum} (english_words_set : list str)
    (fuel rnd : nat) (target : str) (verbose : bool) (full_vocab : list str) :
  VOCABULARY_BY_LENGTH english_words_set !! 5 = Some full_vocab ->
  target ∈ full_vocab ->
  (length full_vocab <= fuel)%nat ->
  ∃ out turns log,
    play_wordle english_words_set fuel rnd 5 (Some target) verbose
    = Some (out, Ok turns) ∧
    play_outcome (out, Ok turns) = Some (Solved turns) ∧
    1 <= turns <= len full_vocab ∧
    (MsgNoCandidates ∉ out) ∧
    play_wordle english_words_set fuel rnd 5 (Some target) true
    = Some (log, Ok turns) ∧
    len (turn_guesses log) = turns ∧
    Forall (λ g, g ∈ full_vocab) (turn_guesses log) ∧
    NoDup (turn_guesses log) ∧
    last (turn_guesses log) = Some target ∧
    Forall (truthful target) log ∧
    feedback target target = Ok (replicate (Z.to_nat 5) GREEN).
Proof.
  intros Hvocab Htarget Hfuel.
  pose proof (vocabulary_word_length _ _ _ Hvocab) as Hlen.
  assert (len target = 5) as Htlen by (by eapply Forall_forall in Hlen).
  unfold play_wordle. rewrite decide_False by (unfold MIN_LEN, MAX_LEN; lia).
  rewrite Hvocab. cbv zeta.
  assert (truthy (Some target) = true) as ->.
  { destruct target; [discriminate Htlen | done]. }
  rewrite bool_decide_eq_false_2 by (intros [?|?]; done). cbn [andb].
  destruct (play_loop_solved fuel 5 target verbose (len full_vocab)
              full_vocab Hlen Htarget Hfuel)
    as (out & log & turns & -> & Hout & Hturns & -> & Hn & Hnd & Hin & Hlast
        & Htruth & _).
  { destruct full_vocab; [by apply elem_of_nil in Htarget | done]. }
  eexists _, _, _. split; [done |]. split; [| split; [| split]].
  - unfold play_outcome. simpl. by rewrite last_snoc.
  - lia.
  - rewrite elem_of_app, list_elem_of_singleton. intros [Hno|Hno]; [| done].
    by eapply Forall_forall in Hout; [| exact Hno].
  - split; [done |]. rewrite turn_guesses_app. simpl. rewrite app_nil_r.
    split; [done |]. split; [done |]. split; [done |]. split; [done |].
    split; [apply Forall_app; by repeat constructor |].
    rewrite feedback_self.
    by assert (length target = 5%nat) as -> by (unfold len in Htlen; lia).
Qed.

Lemma play_wordle_solves_witness :
  VOCABULARY_BY_LENGTH [py "apple"; py "ample"; py "angle"; py "cat"] !! 5
  = Some [py "apple"; py "ample"; py "angle"] ∧
  py "angle" ∈ [py "apple"; py "ample"; py "angle"] ∧
  ∃ out turns log,
    play_wordle (N := real_num) [py "apple"; py "ample"; py "angle"; py "cat"]
      3 0 5 (Some (py "angle")) false
    = Some (out, Ok turns) ∧ 1 <= turns <= 3 ∧
    play_wordle (N := real_num) [py "apple"; py "ample"; py "angle"; py "cat"]
      3 0 5 (Some (py "angle")) true
    = Some (log, Ok turns) ∧
    len (turn_guesses log) = turns ∧
    last (turn_guesses log) = Some (py "angle").
Proof.
  assert (VOCABULARY_BY_LENGTH [py "apple"; py "ample"; py "angle"; py "cat"] !! 5
          = Some [py "apple"; py "ample"; py "angle"]) as Hvocab.
  { vm_compute. reflexivity. }
  assert (py "angle" ∈ [py "apple"; py "ample"; py "angle"]) as Hin
    by (right; right; left).
  split; [exact Hvocab |]. split; [exact Hin |].
  destruct (play_wordle_solves (N := real_num)
              [py "apple"; py "ample"; py "angle"; py "cat"] 3 0 (py "angle")
              false _ Hvocab Hin)
    as (out & turns & log & Hplay & _ & Hturns & _ & Hlog & Hn & _ & _ & Hlast & _).
  - simpl. lia.
  - exists out, turns, log.
    split; [exact Hplay |]. split; [exact Hturns |]. split; [exact Hlog |].
    split; [exact Hn | exact Hlast].
Defined.

(** C8, as the code has it.  In a session of a length from 3 to 15, a
    supplied target that is not the empty string and whose length is not
    the session's, or which is not in the vocabulary, makes
    [play_wordle] return [-1] after the invalid-target message, whatever
    the fuel, even none: no turn is played.  The empty string is false
    at lines 117 and 122, so it counts as no target: the run is the run
    without a target, on a word drawn from the vocabulary. *)
Theorem play_wordle_invalid_target {N : PyNum} (english_words_set : list str)
    (fuel rnd : nat) (length' : Z) (target : str) (verbose : bool) :
  MIN_LEN <= length' <= MAX_LEN ->
  (len target ≠ length' ∨
   ∀ full_vocab,
     VOCABULARY_BY_LENGTH english_words_set !! length' = Some full_vocab ->
     target ∉ full_vocab) ->
  (target ≠ [] ->
   play_wordle english_words_set fuel rnd length' (Some target) verbose
   = Some ([MsgInvalidTarget target], Ok (-1)) ∧
   play_wordle english_words_set 0 rnd length' (Some target) verbose
   = Some ([MsgInvalidTarget target], Ok (-1)) ∧
   play_outcome ([MsgInvalidTarget target], Ok (-1)) = Some InvalidTarget ∧
   turn_guesses [MsgInvalidTarget target] = [] ∧
   ∀ turns, InvalidTarget ≠ Solved turns) ∧
  (target = [] ->
   play_wordle english_words_set fuel rnd length' (Some target) verbose
   = play_wordle english_words_set fuel rnd length' None verbose).
Proof.
  intros Hlen Hbad. split.
  - intros Hne.
    assert (∀ fuel',
              play_wordle english_words_set fuel' rnd length' (Some target)
                verbose
              = Some ([MsgInvalidTarget target], Ok (-1))) as Hrun.
    { intros fuel'. unfold play_wordle. rewrite decide_False by lia.
      rewrite vocabulary_lookup in *. rewrite decide_True in * by done.
      cbv zeta.
      assert (truthy (Some target) = true) as -> by (by destruct target).
      rewrite bool_decide_eq_true_2; [done |].
      destruct Hbad as [Hbad|Hbad]; [by left | right]. by apply Hbad. }
    split; [apply Hrun |]. split; [apply Hrun |]. by repeat split.
  - intros ->. done.
Qed.

Lemma play_wordle_invalid_target_witness :
  MIN_LEN <= 5 <= MAX_LEN ∧ py "zzzzz" ≠ [] ∧
  play_wordle (N := real_num) [py "apple"; py "angle"] 0 0 5
    (Some (py "zzzzz")) true
  = Some ([MsgInvalidTarget (py "zzzzz")], Ok (-1)).
Proof.
  assert (MIN_LEN <= 5 <= MAX_LEN) as Hlen by (unfold MIN_LEN, MAX_LEN; lia).
  assert (py "zzzzz" ≠ []) as Hne by discriminate.
  split; [exact Hlen |]. split; [exact Hne |].
  apply (play_wordle_invalid_target (N := real_num)
           [py "apple"; py "angle"] 0 0 5 (py "zzzzz") true Hlen); [| exact Hne].
  right. intros full_vocab Hvocab.
  assert (full_vocab = [py "apple"; py "angle"]) as ->.
  { vm_compute in Hvocab. by injection Hvocab as <-. }
  intros Hin. apply elem_of_cons in Hin as [Hin|Hin]; [discriminate Hin |].
  apply elem_of_cons in Hin as [Hin|Hin]; [discriminate Hin |].
  by apply elem_of_nil in Hin.
Defined.

(** C8 as stated fails at the empty target.  It is supplied and its
    length 0 differs from the requested 5, yet the run does not fail: a
    word is drawn, a turn is played and the session is solved. *)
Lemma play_wordle_invalid_target_counterexample :
  len ([] : str) ≠ 5 ∧
  ∃ ent,
    play_wordle (N := real_num) [py "apple"; py "cat"] 1 0 5 (Some []) true
    = Some ([MsgTurn 1 (py "apple") (py "ggggg") ent;
             MsgSolved (py "apple") 1], Ok 1) ∧
    play_outcome
      ([MsgTurn 1 (py "apple") (py "ggggg") ent; MsgSolved (py "apple") 1],
       Ok 1)
    = Some (Solved 1) ∧
    Solved 1 ≠ InvalidTarget ∧
    turn_guesses [MsgTurn 1 (py "apple") (py "ggggg") ent;
                  MsgSolved (py "apple") 1]
    = [py "apple"].
Proof.
  split; [discriminate |]. eexists.
  split; [vm_compute; reflexivity |].
  split; [reflexivity |]. split; [discriminate | reflexivity].
Qed.

(** C7, as the code has it.  In auto mode a length outside 3..15 raises
    the [ValueError] of the length check before anything is printed.
    In interactive mode a length without a vocabulary entry, which is
    every length outside 3..15, or with an empty entry ends the session
    with the no-vocabulary message before any input is read.  When the
    check of the mode passes, and in auto mode a target is resolved,
    the loop starts with the full vocabulary of the length as its
    candidates. *)
Theorem init_validation {N : PyNum} (english_words_set : list str) :
  (∀ fuel rnd length' target verbose,
     length' < MIN_LEN ∨ length' > MAX_LEN ->
     play_wordle english_words_set fuel rnd length' target verbose
     = Some ([], Raise ValueError)) ∧
  (∀ length' inputs,
     VOCABULARY_BY_LENGTH english_words_set !! length' = None ∨
     VOCABULARY_BY_LENGTH english_words_set !! length' = Some [] ->
     interactive_manual_mode english_words_set length' inputs
     = ([MsgNoVocabulary], Ok ())) ∧
  (∀ length',
     length' < MIN_LEN ∨ length' > MAX_LEN ->
     VOCABULARY_BY_LENGTH english_words_set !! length' = None) ∧
  (∀ fuel rnd length' target verbose full_vocab t,
     MIN_LEN <= length' <= MAX_LEN ->
     VOCABULARY_BY_LENGTH english_words_set !! length' = Some full_vocab ->
     (if truthy target
      then target = Some t ∧ len t = length' ∧ t ∈ full_vocab
      else random_choice rnd full_vocab = Ok t) ->
     play_wordle english_words_set fuel rnd length' target verbose
     = play_loop fuel length' t verbose (len full_vocab) 0 full_vocab []) ∧
  (∀ length' inputs full_vocab,
     VOCABULARY_BY_LENGTH english_words_set !! length' = Some full_vocab ->
     full_vocab ≠ [] ->
     interactive_manual_mode english_words_set length' inputs
     = interactive_loop inputs length' full_vocab (len full_vocab) 0
         full_vocab []).
Proof.
  split; [| split; [| split; [| split]]].
  - intros fuel rnd length' target verbose Hout.
    unfold play_wordle. by rewrite decide_True.
  - intros length' inputs [H|H]; unfold interactive_manual_mode; by rewrite H.
  - intros length' Hout. rewrite vocabulary_lookup.
    rewrite decide_False; [done | lia].
  - intros fuel rnd length' target verbose full_vocab t Hlen Hvocab Ht.
    unfold play_wordle. rewrite decide_False by lia. rewrite Hvocab. cbv zeta.
    destruct (truthy target) eqn:Htruthy.
    + destruct Ht as (-> & Htl & Hin).
      rewrite bool_decide_eq_false_2; [done |]. intros [?|?]; done.
    + cbn [andb]. by rewrite Ht.
  - intros length' inputs full_vocab Hvocab Hne.
    unfold interactive_manual_mode. rewrite Hvocab.
    by destruct full_vocab.
Qed.

Lemma init_validation_witness :
  (20 < MIN_LEN ∨ 20 > MAX_LEN) ∧
  play_wordle (N := real_num) [py "apple"; py "cat"] 1 0 20 None true
  = Some ([], Raise ValueError) ∧
  interactive_manual_mode (N := real_num) [py "apple"; py "cat"] 20 []
  = ([MsgNoVocabulary], Ok ()).
Proof.
  assert (20 < MIN_LEN ∨ 20 > MAX_LEN) as Hout by (right; unfold MAX_LEN; lia).
  destruct (init_validation (N := real_num) [py "apple"; py "cat"])
    as (Hauto & Hinter & Hnone & _).
  split; [exact Hout |]. split.
  - apply Hauto. right. unfold MAX_LEN. lia.
  - apply Hinter. left. apply Hnone. right. unfold MAX_LEN. lia.
Defined.

(** C7 as stated fails at two inputs.  In interactive mode the length 2
    is outside 3..15 and the session ends with the no-vocabulary
    message, not with a length error.  In auto mode with no word of
    length 5 and no target, nothing checks the empty vocabulary:
    [random.choice] raises [IndexError]. *)
Lemma init_validation_counterexample :
  2 < MIN_LEN ∧
  interactive_outcome
    (interactive_manual_mode (N := real_num) [py "apple"; py "cat"] 2 [])
  = Some EmptyVocabulary ∧
  EmptyVocabulary ≠ InvalidLength ∧
  VOCABULARY_BY_LENGTH [py "cat"] !! 5 = Some [] ∧
  play_outcome <$> play_wordle (N := real_num) [py "cat"] 1 0 5 None true
  = Some (Some (Uncaught IndexError)) ∧
  Uncaught IndexError ≠ EmptyVocabulary.
Proof.
  split; [unfold MIN_LEN; lia |].
  split; [vm_compute; reflexivity |].
  split; [discriminate |].
  split; [vm_compute; reflexivity |].
  split; [vm_compute; reflexivity | discriminate].
Qed.

(** * The loop on small sessions *)

(** A vocabulary of one word is solved in the first turn, whether the
    target is drawn or left empty: the empty string is false at line
    117, like [None]. *)
Example play_wordle_single_word :
  ∃ ent,
    play_wordle (N := real_num) [py "apple"; py "cat"] 1 0 5 None true
    = Some ([MsgTurn 1 (py "apple") (py "ggggg") ent;
             MsgSolved (py "apple") 1], Ok 1) ∧
    play_wordle (N := real_num) [py "apple"; py "cat"] 1 0 5 (Some []) true
    = Some ([MsgTurn 1 (py "apple") (py "ggggg") ent;
             MsgSolved (py "apple") 1], Ok 1).
Proof. eexists. split; vm_compute; reflexivity. Qed.

(** * Further properties of [feedback] *)

Lemma marked_count_insert_black (L : ascii) (guess fb : str) (i : nat)
    (g x : ascii) :
  guess !! i = Some g -> fb !! i = Some BLACK -> x = GREEN ∨ x = YELLOW ->
  marked_count L guess (<[i := x]> fb)
  = (marked_count L guess fb + (if decide (g = L) then 1 else 0))%nat.
Proof.
  intros Hg Hb Hx. unfold marked_count.
  rewrite (zip_insert_r _ _ _ g) by done.
  pose proof (length_filter_insert
    (λ p : ascii * ascii, p.1 = L ∧ (p.2 = GREEN ∨ p.2 = YELLOW))
    (zip guess fb) i (g, x) (g, BLACK) (lookup_zip_Some _ _ _ _ _ Hg Hb)) as H.
  simpl in H.
  rewrite (decide_False (P := g = L ∧ (BLACK = GREEN ∨ BLACK = YELLOW))) in H
    by (intros [_ [?|?]]; discriminate).
  destruct (decide (g = L)) as [->|Hne].
  - rewrite decide_True in H by done. lia.
  - rewrite decide_False in H by (intros [? _]; done). lia.
Qed.

Lemma mark_green_shape (guess target : str) (i : nat) (fb : str)
    (used : list bool) (st' : fb_state) :
  mark_green guess target i (fb, used) = Ok st' ->
  ∃ gi ti, guess !! i = Some gi ∧ target !! i = Some ti ∧
    ((gi ≠ ti ∧ st' = (fb, used)) ∨
     (gi = ti ∧ st' = (<[i := GREEN]> fb, <[i := true]> used))).
Proof.
  unfold mark_green, getitem, setitem.
  destruct (guess !! i) as [gi|]; [| discriminate 1].
  destruct (target !! i) as [ti|]; [| discriminate 1]. simpl.
  intros H. exists gi, ti. split; [done |]. split; [done |].
  destruct (decide (gi = ti)) as [->|Hne].
  - right. split; [done |].
    destruct (decide (i < length fb)%nat); [| discriminate H]. simpl in H.
    destruct (decide (i < length used)%nat); [| discriminate H]. simpl in H.
    by injection H.
  - left. split; [done |]. by injection H.
Qed.

Lemma scan_target_shape (guess target : str) (i : nat) (js : list nat)
    (fb : str) (used : list bool) (st' : fb_state) :
  scan_target guess target i js (fb, used) = Ok st' ->
  (st' = (fb, used) ∧
   ∀ j gi, j ∈ js -> guess !! i = Some gi -> target !! j = Some gi ->
     used !! j = Some true) ∨
  (∃ j gi, used !! j = Some false ∧ guess !! i = Some gi ∧
     target !! j = Some gi ∧
     st' = (<[i := YELLOW]> fb, <[j := true]> used)).
Proof.
  induction js as [|j js IH]; simpl.
  - intros [= <-]. left. split; [done |]. intros j gi Hj.
    by apply elem_of_nil in Hj.
  - unfold getitem, setitem.
    destruct (used !! j) as [uj|] eqn:Huj; [| discriminate 1]. simpl.
    destruct uj.
    + intros H. destruct (IH H) as [[-> Hall]|Hfound]; [left | by right].
      split; [done |]. intros j' gi Hj' Hg Ht.
      apply elem_of_cons in Hj' as [->|Hj']; [done | by eapply Hall].
    + destruct (guess !! i) as [gi|] eqn:Hgi; [| discriminate 1].
      destruct (target !! j) as [tj|] eqn:Htj; [| discriminate 1]. simpl.
      destruct (decide (gi = tj)) as [->|Hne].
      * intros H. right. exists j, tj.
        destruct (decide (i < length fb)%nat); [| discriminate H]. simpl in H.
        destruct (decide (j < length used)%nat); [| discriminate H]. simpl in H.
        by injection H as <-.
      * intros H. destruct (IH H) as [[-> Hall]|Hfound]; [left | by right].
        split; [done |]. intros j' gi' Hj' Hg Ht.
        apply elem_of_cons in Hj' as [->|Hj']; [| by eapply Hall].
        congruence.
Qed.

Lemma used_count_fresh (L : ascii) (target : str) (n : nat) :
  used_count L target (replicate n false) = O.
Proof.
  unfold used_count. revert n.
  induction target as [|c t IH]; intros [|n]; simpl; try done.
  rewrite filter_cons_False; [apply IH |]. simpl. by intros [_ ?].
Qed.

Section FeedbackExact.

Variables guess target : str.
Hypothesis Hlen : (length guess <= length target)%nat.

Lemma pass1_exact_init :
  pass1_exact guess target 0
    (replicate (length guess) BLACK, replicate (length target) false).
Proof.
  split; [by apply pass1_init |]. intros L. simpl.
  by rewrite marked_count_black, used_count_fresh.
Qed.

Lemma mark_green_exact (i : nat) (st : fb_state) :
  (i < length guess)%nat -> pass1_exact guess target i st ->
  exists st',
    mark_green guess target i st = Ok st' /\ pass1_exact guess target (S i) st'.
Proof.
  intros Hi [Hinv Heq].
  destruct (mark_green_step guess target Hlen i st Hi Hinv) as (st' & Hst' & Hinv').
  exists st'. split; [done |]. split; [done |].
  destruct st as [fb used].
  destruct (mark_green_shape _ _ _ _ _ _ Hst')
    as (gi & ti & Hgi & Hti & [[_ ->]|[-> ->]]); [done |].
  destruct Hinv as (Hfb & Hused & Hdone & Hfresh & _). simpl in *.
  intros L.
  rewrite (marked_count_insert_black L guess fb i ti GREEN); [| done | | by left].
  - rewrite (used_count_insert L target used i ti); [| done | apply Hfresh; lia].
    by rewrite Heq.
  - rewrite Hdone by done. rewrite bool_decide_eq_false_2; [done | lia].
Qed.

Lemma pass1_pass2_exact (st : fb_state) :
  pass1_exact guess target (length guess) st -> pass2_exact guess target 0 st.
Proof.
  intros [Hinv Heq]. split; [by apply pass1_pass2 |]. split; [done |].
  destruct Hinv as (Hfb & Hused & Hdone & _ & _).
  assert (∀ k c, st.1 !! k = Some c -> c = GREEN ∨ c = BLACK) as Hgb.
  { intros k c Hk. assert (k < length guess)%nat as Hlt.
    { rewrite <- Hfb. by eapply lookup_lt_Some. }
    rewrite Hdone in Hk by done. injection Hk as <-.
    case_bool_decide; [by left | by right]. }
  split; [| split; [| split]].
  - intros k gk j Hk. lia.
  - intros k _ Hk. rewrite Hdone by done.
    case_bool_decide; [by left | by right].
  - intros k c Hk. destruct (Hgb k c Hk) as [-> | ->]; unfold is_mark; tauto.
  - intros k Hk. destruct (Hgb k _ Hk) as [H|H]; discriminate H.
Qed.

Lemma mark_yellow_exact (i : nat) (st : fb_state) :
  (i < length guess)%nat -> pass2_exact guess target i st ->
  exists st',
    mark_yellow guess target i st = Ok st' /\ pass2_exact guess target (S i) st'.
Proof.
  intros Hi (Hinv & Heq & Hblack & Hlater & Hmark & Hyellow).
  destruct (mark_yellow_step guess target Hlen i st Hi Hinv)
    as (st' & Hst' & Hinv').
  exists st'. split; [done |]. split; [done |].
  destruct st as [fb used].
  pose proof Hinv as (Hfb & Hused & Hgreen & _). simpl in *.
  destruct (lookup_lt_is_Some_2 fb i ltac:(lia)) as [fi Hfi].
  destruct (lookup_lt_is_Some_2 guess i Hi) as [gi Hgi].
  unfold mark_yellow, getitem in Hst'. rewrite Hfi in Hst'. simpl in Hst'.
  destruct (decide (fi = GREEN)) as [->|Hng].
  { injection Hst' as <-. simpl.
    split; [done |]. split; [| split; [| split]]; try done.
    - intros k gk j Hk Hb. destruct (decide (k = i)) as [->|Hne].
      + rewrite Hfi in Hb. discriminate Hb.
      + apply Hblack; [lia | done].
    - intros k Hk. apply Hlater. lia. }
  assert (fb !! i = Some BLACK) as Hbi.
  { destruct (Hlater i ltac:(lia) Hi) as [H|H]; [congruence | done]. }
  destruct (scan_target_shape _ _ _ _ _ _ _ Hst') as [[-> Hall]|Hfound].
  - simpl. split; [done |]. split; [| split; [| split]]; try done.
    + intros k gk j Hk Hb Hg Ht. destruct (decide (k = i)) as [->|Hne].
      * apply (Hall j gk); [| done | done].
        unfold range. apply elem_of_seq. split; [lia |].
        apply lookup_lt_Some in Ht. lia.
      * by apply (Hblack k gk j); [lia | ..].
    + intros k Hk. apply Hlater. lia.
  - destruct Hfound as (j & gi' & Huj & Hgi' & Htj & ->). simpl.
    assert (gi' = gi) as -> by congruence.
    assert (j < length used)%nat as Hj by (by eapply lookup_lt_Some).
    split; [| split; [| split; [| split]]].
    + intros L.
      rewrite (marked_count_insert_black L guess fb i gi YELLOW);
        [| done | done | by right].
      rewrite (used_count_insert L target used j gi) by done.
      by rewrite Heq.
    + intros k gk j' Hk Hb Hg Ht. destruct (decide (k = i)) as [->|Hne].
      * rewrite list_lookup_insert_eq in Hb by lia. discriminate Hb.
      * rewrite list_lookup_insert_ne in Hb by done.
        destruct (decide (j' = j)) as [->|Hnej].
        -- by rewrite list_lookup_insert_eq.
        -- rewrite list_lookup_insert_ne by done.
           by apply (Hblack k gk j'); [lia | ..].
    + intros k Hk Hkn. rewrite list_lookup_insert_ne by lia. apply Hlater; lia.
    + intros k c Hk. destruct (decide (k = i)) as [->|Hne].
      * rewrite list_lookup_insert_eq in Hk by lia. injection Hk as <-.
        unfold is_mark. tauto.
      * rewrite list_lookup_insert_ne in Hk by done. by eapply Hmark.
    + intros k Hk. destruct (decide (k = i)) as [->|Hne].
      * split.
        -- intros Heqk. apply Hgreen in Heqk; [| done]. congruence.
        -- exists j. congruence.
      * rewrite list_lookup_insert_ne in Hk by done. by apply Hyellow.
Qed.

Lemma feedback_exact :
  exists st, pass2_exact guess target (length guess) st ∧
    feedback guess target = Ok st.1.
Proof.
  unfold feedback.
  destruct (for_each_range_inv (mark_green guess target)
              (pass1_exact guess target) (length guess) _ pass1_exact_init)
    as (st1 & -> & H1).
  { intros i st Hi. by apply mark_green_exact. }
  simpl.
  destruct (for_each_range_inv (mark_yellow guess target)
              (pass2_exact guess target) (length guess) st1
              (pass1_pass2_exact _ H1)) as (st2 & -> & H2).
  { intros i st Hi. by apply mark_yellow_exact. }
  by exists st2.
Qed.

End FeedbackExact.

Lemma marked_count_le_guess (L : ascii) (guess fb : str) :
  (marked_count L guess fb <= count guess L)%nat.
Proof.
  unfold marked_count, count. revert fb.
  induction guess as [|c guess IH]; intros [|f fb]; simpl; try lia.
  specialize (IH fb). rewrite !filter_cons. simpl.
  repeat case_decide; simpl; intuition (subst; simpl in *; try lia).
Qed.

Lemma marked_count_all (L : ascii) (guess fb : str) :
  (∀ k, guess !! k = Some L -> fb !! k = Some GREEN ∨ fb !! k = Some YELLOW) ->
  marked_count L guess fb = count guess L.
Proof.
  unfold marked_count, count. revert fb.
  induction guess as [|c guess IH]; intros fb Hall; [done |].
  destruct fb as [|f fb].
  - rewrite filter_cons.
    destruct (decide (c = L)) as [->|Hne]; simpl.
    + destruct (Hall 0%nat eq_refl) as [H|H]; discriminate H.
    + rewrite <- (IH []); [by destruct guess |]. intros k Hk.
      destruct (Hall (S k) Hk) as [H|H]; discriminate H.
  - simpl. rewrite !filter_cons. simpl.
    pose proof (IH fb (λ k Hk, Hall (S k) Hk)) as IH'.
    destruct (decide (c = L)) as [->|Hne].
    + rewrite decide_True; [simpl; by rewrite IH' |]. split; [done |].
      destruct (Hall 0%nat eq_refl) as [H|H]; injection H; tauto.
    + rewrite decide_False; [done |]. by intros [? _].
Qed.

Lemma used_count_all (L : ascii) (target : str) (used : list bool) :
  (∀ j, target !! j = Some L -> used !! j = Some true) ->
  used_count L target used = count target L.
Proof.
  unfold used_count, count. revert used.
  induction target as [|c target IH]; intros used Hall; [done |].
  destruct used as [|u used].
  - rewrite filter_cons.
    destruct (decide (c = L)) as [->|Hne]; simpl.
    + specialize (Hall 0%nat eq_refl). discriminate Hall.
    + rewrite <- (IH []); [by destruct target |]. intros j Hj.
      specialize (Hall (S j) Hj). discriminate Hall.
  - simpl. rewrite !filter_cons. simpl.
    pose proof (IH used (λ j Hj, Hall (S j) Hj)) as IH'.
    destruct (decide (c = L)) as [->|Hne].
    + rewrite decide_True; [simpl; by rewrite IH' |]. split; [done |].
      specialize (Hall 0%nat eq_refl). by injection Hall.
    + rewrite decide_False; [done |]. by intros [? _].
Qed.

(** A returned pattern comes from a target at least as long as the
    guess, with the final state of the second loop behind it. *)
Lemma feedback_Ok_exact (guess target fb : str) :
  feedback guess target = Ok fb ->
  (length guess <= length target)%nat ∧
  ∃ used, pass2_exact guess target (length guess) (fb, used).
Proof.
  intros Hfb.
  destruct (decide (length guess <= length target)%nat) as [Hle|Hgt].
  - split; [done |].
    destruct (feedback_exact guess target Hle) as ([fb' used] & Hinv & Heq).
    rewrite Hfb in Heq. injection Heq as ->. by exists used.
  - rewrite feedback_raises in Hfb by lia. discriminate Hfb.
Qed.

(** X1. [feedback] raises exactly when the guess is longer than the
    target, and then it raises [IndexError]; otherwise it returns a
    pattern of the length of the guess. *)
Theorem feedback_raises_iff (guess target : str) :
  (feedback guess target = Raise IndexError
   ↔ (length target < length guess)%nat) ∧
  (∀ e, feedback guess target = Raise e -> e = IndexError) ∧
  ((length guess <= length target)%nat
   ↔ ∃ fb, feedback guess target = Ok fb ∧ length fb = length guess).
Proof.
  destruct (decide (length guess <= length target)%nat) as [Hle|Hgt].
  - destruct (feedback_returns guess target Hle) as (fb & Hfb & Hl & _).
    rewrite Hfb. split; [| split].
    + split; [discriminate 1 | lia].
    + discriminate 1.
    + split; [by exists fb | done].
  - rewrite feedback_raises by lia. split; [| split].
    + split; [lia | done].
    + by intros e [= <-].
    + split; [lia |]. by intros (fb & Hfb & _).
Qed.

(** X2. A pattern that [feedback] returns has the length of the guess
    and holds no character but 'g', 'y' and 'b'. *)
Theorem feedback_marks (guess target fb : str) :
  feedback guess target = Ok fb ->
  length fb = length guess ∧ Forall is_mark fb.
Proof.
  intros Hfb.
  destruct (feedback_Ok_exact guess target fb Hfb)
    as (_ & used & (Hlen & _) & _ & _ & _ & Hmark & _).
  split; [done |]. apply Forall_lookup. intros k c Hk. by eapply Hmark.
Qed.

Lemma feedback_marks_witness :
  feedback (py "speed") (py "abide") = Ok (py "bbyby") ∧
  Forall is_mark (py "bbyby").
Proof.
  assert (feedback (py "speed") (py "abide") = Ok (py "bbyby")) as Hfb
    by reflexivity.
  split; [exact Hfb |].
  exact (proj2 (feedback_marks (py "speed") (py "abide") (py "bbyby") Hfb)).
Defined.

(** X3. In a returned pattern a position is 'g' exactly where guess and
    target hold the same character; a position is 'y' only where they
    differ and the character of the guess occurs in the target; and a
    position whose character does not occur in the target is 'b'. *)
Theorem feedback_positions (guess target fb : str) (k : nat) (c : ascii) :
  feedback guess target = Ok fb ->
  guess !! k = Some c ->
  (fb !! k = Some GREEN ↔ target !! k = Some c) ∧
  (fb !! k = Some YELLOW -> target !! k ≠ Some c ∧ c ∈ target) ∧
  (c ∉ target -> fb !! k = Some BLACK).
Proof.
  intros Hfb Hc.
  destruct (feedback_Ok_exact guess target fb Hfb)
    as (_ & used & (Hlen & _ & Hgreen & _) & _ & _ & _ & Hmark & Hyellow).
  simpl in *.
  assert (k < length guess)%nat as Hk by (by eapply lookup_lt_Some).
  assert (fb !! k = Some GREEN ↔ target !! k = Some c) as Hg.
  { rewrite (Hgreen k Hk), Hc. split; congruence. }
  assert (fb !! k = Some YELLOW -> target !! k ≠ Some c ∧ c ∈ target) as Hy.
  { intros H. destruct (Hyellow k H) as (Hne & j & Hj). rewrite Hc in *.
    split; [congruence |]. by eapply list_elem_of_lookup_2. }
  split; [done |]. split; [done |].
  intros Hnin.
  destruct (lookup_lt_is_Some_2 fb k ltac:(lia)) as [f Hf].
  destruct (Hmark k f Hf) as [-> | [-> | ->]]; [| | done].
  - exfalso. apply Hnin. apply Hg in Hf. by eapply list_elem_of_lookup_2.
  - exfalso. apply Hnin. by apply Hy.
Qed.

Lemma feedback_positions_witness :
  feedback (py "speed") (py "abide") = Ok (py "bbyby") ∧
  py "speed" !! 0%nat = Some "s"%char ∧
  (("s"%char ∉ py "abide") -> py "bbyby" !! 0%nat = Some BLACK).
Proof.
  assert (feedback (py "speed") (py "abide") = Ok (py "bbyby")) as Hfb
    by reflexivity.
  assert (py "speed" !! 0%nat = Some "s"%char) as Hc by reflexivity.
  split; [exact Hfb |]. split; [exact Hc |].
  exact (proj2 (proj2 (feedback_positions (py "speed") (py "abide")
                         (py "bbyby") 0 "s"%char Hfb Hc))).
Defined.

(** X4. For every letter, the positions of the guess that hold it and
    are marked 'g' or 'y' are as many as the smaller of its numbers of
    occurrences in the guess and in the target. *)
Theorem feedback_count_min (guess target fb : str) (L : ascii) :
  feedback guess target = Ok fb ->
  marked_count L guess fb = (count guess L `min` count target L)%nat.
Proof.
  intros Hfb.
  destruct (feedback_Ok_exact guess target fb Hfb)
    as (_ & used & (Hlen & Hlenu & _ & Hle) & Heq & Hblack & _ & Hmark & _).
  simpl in *.
  pose proof (marked_count_le_guess L guess fb) as Hg.
  pose proof (used_count_le L target used) as Ht.
  specialize (Heq L).
  destruct (Forall_Exists_dec
              (λ p : ascii * ascii, ¬ (p.1 = L ∧ p.2 = BLACK))
              (λ p : ascii * ascii, p.1 = L ∧ p.2 = BLACK)
              (λ p, match decide (p.1 = L ∧ p.2 = BLACK) with
                    | left H => right H
                    | right H => left H
                    end)
              (zip guess fb)) as [Hall|Hex].
  - assert (marked_count L guess fb = count guess L) as Hm; [| lia].
    apply marked_count_all. intros k Hk.
    destruct (lookup_lt_is_Some_2 fb k) as [f Hf].
    { rewrite Hlen. by eapply lookup_lt_Some. }
    rewrite Forall_lookup in Hall.
    specialize (Hall k (L, f) (lookup_zip_Some _ _ _ _ _ Hk Hf)).
    simpl in Hall.
    destruct (Hmark k f Hf) as [-> | [-> | ->]]; [by left | by right | tauto].
  - apply Exists_exists in Hex as ([c f] & Hin & Hc & Hf). simpl in *. subst.
    apply list_elem_of_lookup in Hin as [k Hk].
    apply lookup_zip_with_Some in Hk as (c & f & [= <- <-] & Hgk & Hfk).
    assert (used_count L target used = count target L) as Hu; [| lia].
    apply used_count_all. intros j Hj.
    apply (Hblack k L j); [by eapply lookup_lt_Some | done..].
Qed.

Lemma feedback_count_min_witness :
  feedback (py "speed") (py "abide") = Ok (py "bbyby") ∧
  marked_count "e" (py "speed") (py "bbyby") = 1%nat.
Proof.
  assert (feedback (py "speed") (py "abide") = Ok (py "bbyby")) as Hfb
    by reflexivity.
  split; [exact Hfb |].
  exact (feedback_count_min (py "speed") (py "abide") (py "bbyby") "e" Hfb).
Defined.

(** * Further properties of [filter_candidates] *)

(** The comprehension returns the filtered list unless a candidate is
    shorter than the guess. *)
Lemma filter_candidates_eq (candidates : list str) (guess fb : str) :
  filter_candidates candidates guess fb
  = if decide (Forall (λ w, (length guess <= length w)%nat) candidates)
    then Ok (filter (λ w, feedback guess w = Ok fb) candidates)
    else Raise IndexError.
Proof.
  case_decide as Hall; [by apply filter_candidates_returns |].
  induction candidates as [|word rest IH]; [by destruct Hall |]. simpl.
  destruct (decide (length guess <= length word)%nat) as [Hle|Hgt].
  - destruct (feedback_returns guess word Hle) as (f & -> & _). simpl.
    rewrite IH; [done |]. intros Hrest. apply Hall. by constructor.
  - by rewrite feedback_raises by lia.
Qed.

Lemma filter_candidates_Ok (candidates kept : list str) (guess fb : str) :
  filter_candidates candidates guess fb = Ok kept ->
  kept = filter (λ w, feedback guess w = Ok fb) candidates.
Proof.
  rewrite filter_candidates_eq. case_decide; [| discriminate 1].
  by intros [= <-].
Qed.

(** X5. [filter_candidates] raises exactly when a candidate is shorter
    than the guess, and then it raises [IndexError]. *)
Theorem filter_candidates_raises_iff (candidates : list str) (guess fb : str) :
  (filter_candidates candidates guess fb = Raise IndexError
   ↔ ∃ w, w ∈ candidates ∧ (length w < length guess)%nat) ∧
  (∀ e, filter_candidates candidates guess fb = Raise e -> e = IndexError).
Proof.
  rewrite filter_candidates_eq. case_decide as Hall.
  - split; [| discriminate 1]. split; [discriminate 1 |].
    intros (w & Hin & Hlt). eapply Forall_forall in Hall; [| exact Hin].
    simpl in Hall. lia.
  - split; [| by intros e [= <-]]. split; [| done]. intros _.
    apply not_Forall_Exists in Hall; [| apply _].
    apply Exists_exists in Hall as (w & Hin & Hw). exists w.
    split; [done |]. simpl in Hw. lia.
Qed.

(** X6. Among candidates of the guess's length, the all-green pattern
    keeps the copies of the guess and nothing else. *)
Theorem filter_candidates_all_green (candidates : list str) (guess : str) :
  Forall (λ w, length w = length guess) candidates ->
  filter_candidates candidates guess (replicate (length guess) GREEN)
  = Ok (filter (λ w, w = guess) candidates).
Proof.
  intros Hlen. rewrite filter_candidates_returns.
  2: { eapply Forall_impl; [exact Hlen |]. simpl. lia. }
  f_equal. induction Hlen as [|w rest Hw _ IH]; [done |].
  rewrite !filter_cons, IH.
  destruct (feedback_returns guess w ltac:(lia)) as (fb & Hfb & _).
  pose proof (feedback_all_green guess w fb (eq_sym Hw) Hfb) as Hiff.
  destruct (decide (w = guess)) as [->|Hne].
  - rewrite decide_True; [done |]. rewrite Hfb. f_equal. by apply Hiff.
  - rewrite decide_False; [done |]. rewrite Hfb. intros [= Heq].
    apply Hne. symmetry. by apply Hiff.
Qed.

Lemma filter_candidates_all_green_witness :
  Forall (λ w, length w = length (py "apple"))
    [py "ample"; py "apple"; py "angle"] ∧
  filter_candidates [py "ample"; py "apple"; py "angle"] (py "apple")
    (replicate (length (py "apple")) GREEN)
  = Ok [py "apple"].
Proof.
  assert (Forall (λ w, length w = length (py "apple"))
            [py "ample"; py "apple"; py "angle"]) as Hlen
    by repeat constructor.
  split; [exact Hlen |].
  exact (filter_candidates_all_green
           [py "ample"; py "apple"; py "angle"] (py "apple") Hlen).
Defined.

(** X7. A guess that did not get the all-green pattern is not among the
    filtered candidates: if it was a candidate, the list gets strictly
    shorter. *)
Theorem filter_candidates_drops_guess (candidates kept : list str)
    (guess fb : str) :
  fb ≠ replicate (length guess) GREEN ->
  filter_candidates candidates guess fb = Ok kept ->
  (guess ∉ kept) ∧
  (guess ∈ candidates -> (length kept < length candidates)%nat).
Proof.
  intros Hfb Hkept. apply filter_candidates_Ok in Hkept as ->.
  assert (feedback guess guess ≠ Ok fb) as Hself.
  { destruct (feedback_returns guess guess ltac:(lia)) as (f & Hf & _).
    rewrite Hf. intros [= ->]. apply Hfb.
    by apply (feedback_all_green guess guess). }
  split.
  - rewrite list_elem_of_filter. tauto.
  - intros Hin. by apply (length_filter_lt _ _ guess).
Qed.

Lemma filter_candidates_drops_guess_witness :
  py "bbbbb" ≠ replicate (length (py "arise")) GREEN ∧
  filter_candidates [py "arise"; py "lucky"] (py "arise") (py "bbbbb")
  = Ok [py "lucky"] ∧
  (py "arise" ∉ [py "lucky"]).
Proof.
  assert (py "bbbbb" ≠ replicate (length (py "arise")) GREEN) as Hfb
    by discriminate.
  assert (filter_candidates [py "arise"; py "lucky"] (py "arise") (py "bbbbb")
          = Ok [py "lucky"]) as Hkept by reflexivity.
  split; [exact Hfb |]. split; [exact Hkept |].
  exact (proj1 (filter_candidates_drops_guess _ _ _ _ Hfb Hkept)).
Defined.

(** X8. Filtering on two observations gives the same list in either
    order, and filtering twice on one observation changes nothing. *)
Theorem filter_candidates_commute (candidates k1 k2 k12 k21 : list str)
    (g1 f1 g2 f2 : str) :
  filter_candidates candidates g1 f1 = Ok k1 ->
  filter_candidates k1 g2 f2 = Ok k12 ->
  filter_candidates candidates g2 f2 = Ok k2 ->
  filter_candidates k2 g1 f1 = Ok k21 ->
  k12 = k21 ∧ filter_candidates k1 g1 f1 = Ok k1.
Proof.
  intros H1 H12 H2 H21.
  pose proof H1 as H1'. rewrite filter_candidates_eq in H1'.
  case_decide as Hall; [| discriminate H1'].
  apply filter_candidates_Ok in H1 as ->. apply filter_candidates_Ok in H12 as ->.
  apply filter_candidates_Ok in H2 as ->. apply filter_candidates_Ok in H21 as ->.
  split.
  - clear. induction candidates as [|w rest IH]; [done |].
    rewrite !filter_cons.
    destruct (decide (feedback g1 w = Ok f1)), (decide (feedback g2 w = Ok f2));
      rewrite ?filter_cons, ?decide_True, ?decide_False by done; by rewrite IH.
  - rewrite filter_candidates_returns.
    + f_equal. clear. induction candidates as [|w rest IH]; [done |].
      rewrite !filter_cons. case_decide; [| done].
      rewrite filter_cons, decide_True by done. by rewrite IH.
    + apply Forall_forall. intros w Hw. apply list_elem_of_filter in Hw as [_ Hw].
      by eapply Forall_forall in Hall.
Qed.

Lemma filter_candidates_commute_witness :
  filter_candidates [py "raise"; py "arise"; py "aisle"] (py "arise") (py "yyggg")
  = Ok [py "raise"] ∧
  filter_candidates [py "raise"] (py "aisle") (py "yyybg") = Ok [py "raise"] ∧
  filter_candidates [py "raise"; py "arise"; py "aisle"] (py "aisle") (py "yyybg")
  = Ok [py "raise"] ∧
  filter_candidates [py "raise"] (py "arise") (py "yyggg") = Ok [py "raise"] ∧
  filter_candidates [py "raise"] (py "arise") (py "yyggg") = Ok [py "raise"].
Proof.
  assert (filter_candidates [py "raise"; py "arise"; py "aisle"] (py "arise")
            (py "yyggg") = Ok [py "raise"]) as H1 by reflexivity.
  assert (filter_candidates [py "raise"] (py "aisle") (py "yyybg")
          = Ok [py "raise"]) as H12 by reflexivity.
  assert (filter_candidates [py "raise"; py "arise"; py "aisle"] (py "aisle")
            (py "yyybg") = Ok [py "raise"]) as H2 by reflexivity.
  assert (filter_candidates [py "raise"] (py "arise") (py "yyggg")
          = Ok [py "raise"]) as H21 by reflexivity.
  split; [exact H1 |]. split; [exact H12 |]. split; [exact H2 |].
  split; [exact H21 |].
  exact (proj2 (filter_candidates_commute _ _ _ _ _ _ _ _ _ H1 H12 H2 H21)).
Defined.

(** * Further properties of [calculate_entropy] *)

Lemma dict_get_set {V} (d : list (str * V)) (k k' : str) (v default : V) :
  dict_get (dict_set d k v) k' default
  = if decide (k = k') then v else dict_get d k' default.
Proof.
  induction d as [|[k0 v0] d IH]; simpl.
  - by destruct (decide (k = k')).
  - destruct (decide (k0 = k)) as [->|Hne]; simpl.
    + by destruct (decide (k = k')).
    + rewrite IH. destruct (decide (k0 = k')) as [->|Hne']; [| done].
      by rewrite decide_False.
Qed.

Lemma tally_get (pc : list (str * Z)) (fbs : list str) (f : str) :
  dict_get (tally pc fbs) f 0
  = dict_get pc f 0 + len (filter (λ f', f' = f) fbs).
Proof.
  revert pc. induction fbs as [|f0 fbs IH]; intros pc; simpl.
  - unfold len. simpl. lia.
  - unfold tally in IH. rewrite IH, dict_get_set, filter_cons.
    destruct (decide (f0 = f)) as [->|Hne]; unfold len; simpl; lia.
Qed.

Lemma count_patterns_Ok (guess : str) (candidates : list str)
    (pc0 pc : list (str * Z)) :
  for_each (count_pattern guess) candidates pc0 = Ok pc ->
  ∃ fbs, Forall2 (λ c f, feedback guess c = Ok f) candidates fbs ∧
    pc = tally pc0 fbs.
Proof.
  revert pc0. induction candidates as [|w rest IH]; intros pc0; simpl.
  - intros [= <-]. exists []. by split; [constructor |].
  - destruct (feedback guess w) as [e|f] eqn:Hf.
    { assert (count_pattern guess w pc0 = Raise e) as ->; [| discriminate 1].
      unfold count_pattern. by rewrite Hf. }
    assert (count_pattern guess w pc0
            = Ok (dict_set pc0 f (dict_get pc0 f 0 + 1))) as ->.
    { unfold count_pattern. by rewrite Hf. }
    simpl. intros H. destruct (IH _ H) as (fbs & Hall & ->).
    exists (f :: fbs). by split; [constructor |].
Qed.

Lemma feedbacks_filter (guess f : str) (candidates fbs : list str) :
  Forall2 (λ c f, feedback guess c = Ok f) candidates fbs ->
  length (filter (λ f', f' = f) fbs)
  = length (filter (λ w, feedback guess w = Ok f) candidates).
Proof.
  induction 1 as [|w f0 rest fbs Hw _ IH]; [done |].
  rewrite !filter_cons, Hw.
  destruct (decide (f0 = f)) as [->|Hne].
  - rewrite decide_True by done. simpl. by rewrite IH.
  - rewrite decide_False by congruence. done.
Qed.

(** X9. When the first loop of [calculate_entropy] returns, the keys of
    [pattern_counts] are distinct, they are the patterns that the
    candidates produce, every pattern is counted as many times as
    [filter_candidates] keeps candidates for it, and the counts add up to
    the number of candidates. *)
Theorem pattern_counts_partition (guess : str) (candidates : list str)
    (pattern_counts : list (str * Z)) :
  for_each (count_pattern guess) candidates [] = Ok pattern_counts ->
  NoDup pattern_counts.*1 ∧
  (∀ f, f ∈ pattern_counts.*1
        ↔ ∃ w, w ∈ candidates ∧ feedback guess w = Ok f) ∧
  (∀ f, ∃ kept, filter_candidates candidates guess f = Ok kept ∧
          dict_get pattern_counts f 0 = len kept) ∧
  sum_values pattern_counts = len candidates.
Proof.
  intros Hpc. destruct (count_patterns_Ok _ _ _ _ Hpc) as (fbs & Hall & ->).
  assert (Forall (λ w, (length guess <= length w)%nat) candidates) as Hlen.
  { clear Hpc. induction Hall as [|w f rest fbs Hw _ IH]; constructor; [| done].
    destruct (decide (length guess <= length w)%nat); [done |].
    rewrite feedback_raises in Hw by lia. discriminate Hw. }
  split; [by apply tally_NoDup, NoDup_nil_2 |]. split; [| split].
  - intros f. rewrite tally_elem_of. split.
    + intros [Hin|Hin]; [by apply elem_of_nil in Hin |].
      apply list_elem_of_lookup in Hin as [i Hi].
      destruct (Forall2_lookup_r _ _ _ _ _ Hall Hi) as (w & Hw & Hwf).
      exists w. split; [by eapply list_elem_of_lookup_2 | done].
    + intros (w & Hin & Hwf). right.
      apply list_elem_of_lookup in Hin as [i Hi].
      destruct (Forall2_lookup_l _ _ _ _ _ Hall Hi) as (f' & Hf' & Hwf').
      rewrite Hwf in Hwf'. injection Hwf' as <-.
      by eapply list_elem_of_lookup_2.
  - intros f. eexists. split; [by apply filter_candidates_returns |].
    rewrite tally_get. simpl. unfold len.
    by rewrite (feedbacks_filter guess f candidates fbs).
  - rewrite tally_sum. unfold sum_values, len. simpl.
    by rewrite (Forall2_length _ _ _ Hall).
Qed.

Lemma pattern_counts_partition_witness :
  for_each (count_pattern (py "arise"))
    [py "raise"; py "arise"; py "sires"; py "raise"] []
  = Ok [(py "yyggg", 2); (py "ggggg", 1); (py "byyyy", 1)] ∧
  sum_values [(py "yyggg", 2); (py "ggggg", 1); (py "byyyy", 1)] = 4.
Proof.
  assert (for_each (count_pattern (py "arise"))
            [py "raise"; py "arise"; py "sires"; py "raise"] []
          = Ok [(py "yyggg", 2); (py "ggggg", 1); (py "byyyy", 1)]) as Hpc
    by reflexivity.
  split; [exact Hpc |].
  exact (proj2 (proj2 (proj2 (pattern_counts_partition _ _ _ Hpc)))).
Defined.

(** * Further properties of [rank_guesses] *)

Section RankingMore.

Context {N : PyNum}.

Lemma entropies_loop_Ok (candidates pool : list str)
    (acc ranked : list (str * num)) :
  for_each
    (λ word entropies,
       e ← calculate_entropy word candidates;
       Ok (entropies ++ [(word, e)]))
    pool acc
  = Ok ranked ->
  ∃ scored, scores candidates pool scored ∧ ranked = acc ++ scored.
Proof.
  revert acc. induction pool as [|w pool IH]; intros acc; simpl.
  - intros [= <-]. exists []. split; [constructor | by rewrite app_nil_r].
  - destruct (calculate_entropy w candidates) as [?|e] eqn:He;
      [discriminate 1 |]. simpl.
    intros H. destruct (IH _ H) as (scored & Hsc & ->).
    exists ((w, e) :: scored). split.
    + unfold scores. constructor; [by split | exact Hsc].
    + by rewrite <- app_assoc.
Qed.

Lemma rank_guesses_Ok (candidates pool : list str) (topn : Z)
    (ranking : list (str * num)) :
  rank_guesses candidates pool topn = Ok ranking ->
  ∃ scored, scores candidates pool scored ∧
    ranking = slice_to (list_sort fltb (λ x, fneg x.2) scored) topn.
Proof.
  unfold rank_guesses. intros H.
  match type of H with
  | context [for_each ?body pool []] =>
      destruct (for_each body pool []) as [?|ranked] eqn:Hloop;
        [discriminate H |]
  end.
  destruct (entropies_loop_Ok _ _ _ _ Hloop) as (scored & Hsc & ->).
  exists scored. split; [done |]. by injection H.
Qed.

(** X11. A ranking that [rank_guesses] returns has [topn] entries, or
    as many as the pool has if that is less; a negative [topn] drops
    that many entries from the end.  Every entry is a word of the pool
    with its entropy. *)
Theorem rank_guesses_length (candidates pool : list str) (topn : Z)
    (ranking : list (str * num)) :
  rank_guesses candidates pool topn = Ok ranking ->
  length ranking
  = (if decide (0 <= topn)%Z then Z.to_nat topn `min` length pool
     else length pool - Z.to_nat (- topn)%Z)%nat ∧
  Forall (λ x, x.1 ∈ pool ∧ calculate_entropy x.1 candidates = Ok x.2) ranking.
Proof.
  intros H. destruct (rank_guesses_Ok _ _ _ _ H) as (scored & Hsc & ->).
  pose proof (list_sort_perm fltb (λ x : str * num, fneg x.2) scored) as Hperm.
  assert (length (list_sort fltb (λ x : str * num, fneg x.2) scored)
          = length pool) as Hlen.
  { rewrite Hperm. symmetry. by eapply Forall2_length. }
  split.
  - unfold slice_to. case_decide; rewrite length_take, Hlen; lia.
  - apply Forall_forall. intros x Hx.
    assert (x ∈ scored) as Hin.
    { rewrite <- Hperm. unfold slice_to in Hx.
      case_decide; apply elem_of_take in Hx as (i & Hi & _);
        by eapply list_elem_of_lookup_2. }
    apply list_elem_of_lookup in Hin as [i Hi].
    destruct (Forall2_lookup_r _ _ _ _ _ Hsc Hi) as (w & Hw & <- & Hent).
    split; [by eapply list_elem_of_lookup_2 | done].
Qed.

End RankingMore.

Lemma rank_guesses_length_witness :
  ∃ ranking,
    rank_guesses (N := real_num) [py "apple"] [py "apple"] 100 = Ok ranking ∧
    length ranking = 1%nat.
Proof.
  eexists. split; [vm_compute; reflexivity |].
  apply (rank_guesses_length (N := real_num) [py "apple"] [py "apple"] 100).
  vm_compute. reflexivity.
Defined.

Lemma filter_head_split {A} (P : A -> Prop) `{!∀ x, Decision (P x)}
    (l r : list A) (x : A) :
  filter P l = x :: r ->
  ∃ l1 l2, l = l1 ++ x :: l2 ∧ Forall (λ y, ¬ P y) l1.
Proof.
  induction l as [|a l IH]; [discriminate 1 |].
  rewrite filter_cons. destruct (decide (P a)) as [Ha|Ha].
  - intros [= -> _]. exists [], l. by split; [| constructor].
  - intros Hf. destruct (IH Hf) as (l1 & l2 & -> & Hl1).
    exists (a :: l1), l2. by split; [| constructor].
Qed.

Lemma slice_to_head {A} (l r : list A) (x : A) (n : Z) :
  slice_to l n = x :: r -> ∃ l', l = x :: l'.
Proof.
  unfold slice_to.
  destruct l as [|a l]; [case_decide; rewrite take_nil; discriminate 1 |].
  case_decide.
  - destruct (Z.to_nat n); [discriminate 1 |]. intros [= -> _]. by eexists.
  - destruct (length (a :: l) - Z.to_nat (- n))%nat; [discriminate 1 |].
    intros [= -> _]. by eexists.
Qed.

(** X12. Over numbers whose [<] is a strict weak order, the first entry
    of a ranking is a word of the pool whose entropy no word of the
    pool exceeds, and every word that stands before it in the pool has a
    strictly smaller entropy: the loop plays the first word of maximal
    entropy. *)
Theorem rank_guesses_first_max {N : PyNum} {O : PyNumOrder}
    (candidates pool : list str) (topn : Z) (guess : str) (ent : num)
    (rest : list (str * num)) :
  rank_guesses candidates pool topn = Ok ((guess, ent) :: rest) ->
  ∃ i, pool !! i = Some guess ∧
    calculate_entropy guess candidates = Ok ent ∧
    ∀ j w e, pool !! j = Some w -> calculate_entropy w candidates = Ok e ->
      fltb ent e = false ∧ ((j < i)%nat -> fltb e ent = true).
Proof.
  intros H. destruct (rank_guesses_Ok _ _ _ _ H) as (scored & Hsc & Hrank).
  rewrite (list_sort_ext _ _ (flip fltb) snd) in Hrank
    by (intros x y; apply fltb_fneg).
  symmetry in Hrank. apply slice_to_head in Hrank as [sorted Hsorted].
  assert (∀ a b, flip fltb a b = true -> flip fltb b a = false) as Hasym.
  { intros a b. apply fltb_asym. }
  assert (∀ a b c, flip fltb a b = false -> flip fltb b c = false ->
                   flip fltb a c = false) as Hnegtrans.
  { intros a b c H1 H2. unfold flip in *. by eapply fltb_negtrans. }
  assert (∀ a, fltb a a = false) as Hirr.
  { intros a. destruct (fltb a a) eqn:Ha; [| done].
    pose proof (fltb_asym a a Ha). congruence. }
  pose proof (list_sort_perm (flip fltb) snd scored) as Hperm.
  pose proof (list_sort_sorted (flip fltb) snd Hasym Hnegtrans scored) as Hss.
  assert (filter (entropy_tie ent) (list_sort (flip fltb) snd scored)
          = filter (entropy_tie ent) scored) as Hties.
  { apply list_sort_filter.
    intros x y [Hx _] [_ Hy]. unfold flip. by eapply fltb_negtrans. }
  rewrite Hsorted in Hperm, Hss, Hties.
  apply StronglySorted_cons in Hss as [Hmax _].
  assert (∀ y, y ∈ scored -> fltb ent y.2 = false) as Hge.
  { intros y Hy. rewrite <- Hperm in Hy.
    apply elem_of_cons in Hy as [->|Hy]; [apply Hirr |].
    by eapply Forall_forall in Hmax. }
  rewrite filter_cons_True in Hties by (split; apply Hirr).
  symmetry in Hties.
  destruct (filter_head_split _ _ _ _ Hties) as (l1 & l2 & -> & Hl1).
  exists (length l1).
  assert ((l1 ++ (guess, ent) :: l2) !! length l1 = Some (guess, ent)) as Hi.
  { by apply list_lookup_middle. }
  destruct (Forall2_lookup_r _ _ _ _ _ Hsc Hi) as (w & Hw & Heq & Hent).
  simpl in Heq, Hent. subst w. split; [done |]. split; [done |].
  intros j w e Hj He.
  destruct (Forall2_lookup_l _ _ _ _ _ Hsc Hj) as (y & Hy & <- & Hye).
  assert (e = y.2) as -> by congruence.
  split; [apply Hge; by eapply list_elem_of_lookup_2 |].
  intros Hlt. rewrite lookup_app_l in Hy by done.
  eapply Forall_lookup in Hl1; [| exact Hy]. unfold entropy_tie in Hl1.
  destruct (fltb y.2 ent) eqn:Hlt'; [done |]. exfalso. apply Hl1.
  split; [done |]. apply Hge. apply elem_of_app. left.
  by eapply list_elem_of_lookup_2.
Qed.

(** The pool of the witness has three words over the candidates
    [abc] and [abd]: [xyz] tells them apart in nothing, and [abc] and
    [abd] tie.  The ranking starts with [abc], the first of the tie,
    which stands behind [xyz] in the pool. *)
Lemma rank_guesses_first_max_witness :
  ∃ ent e0 : R,
    rank_guesses (N := real_num) [py "abc"; py "abd"]
      [py "xyz"; py "abc"; py "abd"] 1
    = Ok [(py "abc", ent)] ∧
    calculate_entropy (N := real_num) (py "xyz") [py "abc"; py "abd"] = Ok e0 ∧
    calculate_entropy (N := real_num) (py "abd") [py "abc"; py "abd"] = Ok ent ∧
    (e0 < ent)%R.
Proof.
  set (E0 := entropy_sum (N := real_num) 2 0%R [2]).
  set (E1 := entropy_sum (N := real_num) 2 0%R [1; 1]).
  assert (calculate_entropy (N := real_num) (py "xyz") [py "abc"; py "abd"]
          = Ok E0) as H0 by (vm_compute; reflexivity).
  assert (calculate_entropy (N := real_num) (py "abc") [py "abc"; py "abd"]
          = Ok E1) as H1 by (vm_compute; reflexivity).
  assert (calculate_entropy (N := real_num) (py "abd") [py "abc"; py "abd"]
          = Ok E1) as H2 by (vm_compute; reflexivity).
  assert (E0 = 0%R) as HE0.
  { unfold E0, entropy_sum. cbn [foldl].
    rewrite (plogp_one (PyNumLaws := real_num_laws)) by lia. simpl. lra. }
  assert (0 < E1)%R as HE1.
  { pose proof (entropy_sum_pos (L := real_num_laws) 2 [1; 1] 0%R) as H.
    simpl in H. apply bool_decide_eq_true in H; [exact H | | |].
    - repeat constructor; lia.
    - discriminate.
    - apply bool_decide_eq_false. lra. }
  assert (rank_guesses (N := real_num) [py "abc"; py "abd"]
            [py "xyz"; py "abc"; py "abd"] 1 = Ok [(py "abc", E1)]) as Hrank.
  { unfold rank_guesses. cbn [for_each]. rewrite H0. cbn [mbind result_bind app].
    rewrite H1. cbn [mbind result_bind app]. rewrite H2. cbn [mbind result_bind app].
    unfold list_sort. cbn [foldr sort_insert snd].
    assert (fltb (PyNum := real_num) (fneg E1) (fneg E1) = false) as ->
      by (apply bool_decide_eq_false; simpl; lra).
    cbn [sort_insert snd].
    assert (fltb (PyNum := real_num) (fneg E1) (fneg E0) = true) as ->
      by (apply bool_decide_eq_true; simpl; lra).
    reflexivity. }
  exists E1, E0. split; [exact Hrank |]. split; [exact H0 |]. split; [exact H2 |].
  destruct (rank_guesses_first_max (N := real_num) (O := real_num_order)
              [py "abc"; py "abd"] [py "xyz"; py "abc"; py "abd"] 1
              (py "abc") E1 [] Hrank) as (i & Hi & _ & Hmax).
  assert (i = 1%nat) as ->.
  { destruct i as [|[|[|i]]]; [discriminate Hi | done | discriminate Hi..]. }
  destruct (Hmax 0%nat (py "xyz") E0 eq_refl H0) as [_ Hlt].
  specialize (Hlt ltac:(lia)). simpl in Hlt.
  by apply bool_decide_eq_true in Hlt.
Defined.

(** * Further properties of the vocabulary *)

(** X13. [VOCABULARY_BY_LENGTH] has an entry exactly for the lengths from
    3 to 15.  The entry of a length holds only alphabetic words of that
    length from the word set, in the order of the word set, without
    repetition if the word set has none, and at most 500000 of them. *)
Theorem vocabulary_entry (english_words_set : list str) (n : Z) :
  (is_Some (VOCABULARY_BY_LENGTH english_words_set !! n)
   ↔ MIN_LEN <= n <= MAX_LEN) ∧
  ∀ full_vocab,
    VOCABULARY_BY_LENGTH english_words_set !! n = Some full_vocab ->
    Forall (λ w, len w = n ∧ isalpha w = true ∧ w ∈ english_words_set)
      full_vocab ∧
    full_vocab `sublist_of` english_words_set ∧
    (NoDup english_words_set -> NoDup full_vocab) ∧
    len full_vocab <= 500000.
Proof.
  rewrite vocabulary_lookup. split.
  - case_decide as Hn; split; by intros H.
  - intros full_vocab. case_decide; [| done]. intros [= <-].
    assert (words_of_length english_words_set n `sublist_of` english_words_set)
      as Hsub.
    { unfold words_of_length.
      etrans; [apply sublist_take |]. etrans; apply sublist_filter. }
    split; [| split; [done | split]].
    + apply Forall_forall. intros w Hw. unfold words_of_length in Hw.
      apply elem_of_take in Hw as (i & Hi & _).
      apply list_elem_of_lookup_2 in Hi.
      apply list_elem_of_filter in Hi as [Hlen Hi].
      by apply list_elem_of_filter in Hi as [Halpha Hi].
    + intros Hnd. by eapply sublist_NoDup.
    + unfold words_of_length, len. rewrite length_take.
      etrans; [apply inj_le, Nat.le_min_l |].
      unfold VOCAB_CAP. by rewrite Z2Nat.id.
Qed.

Lemma vocabulary_entry_witness :
  VOCABULARY_BY_LENGTH [py "apple"; py "cat"; py "x1"; py "angle"] !! 5
  = Some [py "apple"; py "angle"] ∧
  len [py "apple"; py "angle"] <= 500000.
Proof.
  assert (VOCABULARY_BY_LENGTH [py "apple"; py "cat"; py "x1"; py "angle"] !! 5
          = Some [py "apple"; py "angle"]) as Hvocab.
  { vm_compute. reflexivity. }
  split; [exact Hvocab |].
  destruct (vocabulary_entry [py "apple"; py "cat"; py "x1"; py "angle"] 5)
    as [_ Hentry].
  exact (proj2 (proj2 (proj2 (Hentry _ Hvocab)))).
Defined.

(** X14. When the word set has no more than 500000 alphabetic words of
    a length from 3 to 15, the entry of that length holds every one of
    them. *)
Theorem vocabulary_complete (english_words_set : list str) (n : Z) (w : str) :
  MIN_LEN <= n <= MAX_LEN ->
  len (filter (λ w, len w = n)
         (filter (λ w, isalpha w = true) english_words_set)) <= 500000 ->
  w ∈ english_words_set -> isalpha w = true -> len w = n ->
  ∃ full_vocab,
    VOCABULARY_BY_LENGTH english_words_set !! n = Some full_vocab ∧
    w ∈ full_vocab.
Proof.
  intros Hn Hcap Hin Halpha Hlen.
  rewrite vocabulary_lookup, decide_True by done.
  eexists. split; [done |]. unfold words_of_length.
  rewrite take_ge.
  - apply list_elem_of_filter. split; [done |].
    by apply list_elem_of_filter.
  - unfold VOCAB_CAP, len in *. lia.
Qed.

Lemma vocabulary_complete_witness :
  MIN_LEN <= 3 <= MAX_LEN ∧
  ∃ full_vocab,
    VOCABULARY_BY_LENGTH [py "apple"; py "cat"] !! 3 = Some full_vocab ∧
    py "cat" ∈ full_vocab.
Proof.
  assert (MIN_LEN <= 3 <= MAX_LEN) as Hn by (unfold MIN_LEN, MAX_LEN; lia).
  split; [exact Hn |].
  apply (vocabulary_complete [py "apple"; py "cat"] 3 (py "cat") Hn).
  - vm_compute. discriminate.
  - right. left.
  - reflexivity.
  - reflexivity.
Defined.

(** * Further properties of [play_wordle] *)

Lemma random_choice_elem {A} (rnd : nat) (l : list A) :
  l ≠ [] -> ∃ x, random_choice rnd l = Ok x ∧ x ∈ l.
Proof.
  intros Hne. unfold random_choice, getitem.
  destruct l as [|a l]; [done |].
  destruct (lookup_lt_is_Some_2 (a :: l) (rnd `mod` length (a :: l))%nat)
    as [x Hx].
  { apply Nat.mod_upper_bound. simpl. lia. }
  rewrite Hx. exists x. split; [done |]. by eapply list_elem_of_lookup_2.
Qed.

(** X15. For a length from 3 to 15 with a non-empty vocabulary and fuel
    for as many turns as the vocabulary has words, [play_wordle] raises
    nothing and never ends in the no-candidates branch, whatever the
    target argument, the draw and [verbose] are: it returns [-1] for a
    supplied target that is not a vocabulary word of the length, and
    otherwise the number of turns, from 1 to the size of the
    vocabulary, in which it found the target.  Found means that the run
    that prints its turns returns the same number, and that its log
    shows that many guesses, each with its feedback against the target,
    the last of them the target itself. *)
Theorem play_wordle_outcomes {N : PyNum} (english_words_set : list str)
    (fuel rnd : nat) (length' : Z) (target : option str) (verbose : bool)
    (full_vocab : list str) :
  MIN_LEN <= length' <= MAX_LEN ->
  VOCABULARY_BY_LENGTH english_words_set !! length' = Some full_vocab ->
  full_vocab ≠ [] ->
  (length full_vocab <= fuel)%nat ->
  ∃ out v,
    play_wordle english_words_set fuel rnd length' target verbose
    = Some (out, Ok v) ∧
    ((play_outcome (out, Ok v) = Some InvalidTarget ∧ v = -1 ∧
      turn_guesses out = [] ∧
      ∃ t, target = Some t ∧ t ≠ [] ∧ (len t ≠ length' ∨ t ∉ full_vocab)) ∨
     (play_outcome (out, Ok v) = Some (Solved v) ∧ 1 <= v <= len full_vocab ∧
      ∃ t log,
        t ∈ full_vocab ∧ last out = Some (MsgSolved t v) ∧
        (truthy target = true -> target = Some t) ∧
        (truthy target = false -> random_choice rnd full_vocab = Ok t) ∧
        play_wordle english_words_set fuel rnd length' target true
        = Some (log, Ok v) ∧
        len (turn_guesses log) = v ∧
        last (turn_guesses log) = Some t ∧
        Forall (truthful t) log)).
Proof.
  intros Hlen Hvocab Hne Hfuel.
  pose proof (vocabulary_word_length _ _ _ Hvocab) as Hwords.
  assert (len full_vocab ≠ 0) as Hmax.
  { destruct full_vocab; [done | unfold len; simpl; lia]. }
  assert (∀ t log v,
            len (turn_guesses log) = v -> last (turn_guesses log) = Some t ->
            Forall (truthful t) log ->
            len (turn_guesses (log ++ [MsgSolved t v])) = v ∧
            last (turn_guesses (log ++ [MsgSolved t v])) = Some t ∧
            Forall (truthful t) (log ++ [MsgSolved t v])) as Hlog.
  { intros t log v Hv Hl Ht. rewrite turn_guesses_app. simpl.
    rewrite app_nil_r. split; [done |]. split; [done |].
    apply Forall_app. by repeat constructor. }
  unfold play_wordle. rewrite decide_False by lia. rewrite Hvocab. cbv zeta.
  destruct (truthy target) eqn:Htruthy.
  - destruct target as [[|c t]|]; try discriminate Htruthy.
    cbn [andb]. case_bool_decide as Hbad.
    + eexists _, _. split; [done |]. left. split; [done |]. split; [done |].
      split; [done |]. by exists (c :: t).
    + assert (c :: t ∈ full_vocab) as Hin.
      { destruct (decide (c :: t ∈ full_vocab)); [done | tauto]. }
      destruct (play_loop_solved fuel length' (c :: t) verbose (len full_vocab)
                  full_vocab Hwords Hin Hfuel Hmax)
        as (out & log & v & -> & _ & Hv & -> & Hn & _ & _ & Hlast & Htruth & _).
      eexists _, _. split; [done |]. right.
      unfold play_outcome. cbn [fst snd]. rewrite last_snoc.
      split; [done |]. split; [done |]. exists (c :: t), (log ++ [MsgSolved (c :: t) v]).
      split; [done |]. split; [done |]. split; [done |].
      split; [discriminate 1 |].
      split; [by rewrite decide_False by lia |]. by apply Hlog.
  - cbn [andb].
    destruct (random_choice_elem rnd full_vocab Hne) as (t & Hdraw & Hin).
    rewrite Hdraw.
    destruct (play_loop_solved fuel length' t verbose (len full_vocab)
                full_vocab Hwords Hin Hfuel Hmax)
      as (out & log & v & -> & _ & Hv & -> & Hn & _ & _ & Hlast & Htruth & _).
    eexists _, _. split; [done |]. right.
    unfold play_outcome. cbn [fst snd]. rewrite last_snoc.
    split; [done |]. split; [done |]. exists t, (log ++ [MsgSolved t v]).
    split; [done |]. split; [done |]. split; [discriminate 1 |].
    split; [done |]. split; [by rewrite decide_False by lia |]. by apply Hlog.
Qed.

Lemma play_wordle_outcomes_witness :
  MIN_LEN <= 5 <= MAX_LEN ∧
  VOCABULARY_BY_LENGTH [py "apple"; py "ample"; py "angle"; py "cat"] !! 5
  = Some [py "apple"; py "ample"; py "angle"] ∧
  ∃ out v log,
    play_wordle (N := real_num) [py "apple"; py "ample"; py "angle"; py "cat"]
      3 7 5 None false
    = Some (out, Ok v) ∧
    play_wordle (N := real_num) [py "apple"; py "ample"; py "angle"; py "cat"]
      3 7 5 None true
    = Some (log, Ok v) ∧
    len (turn_guesses log) = v ∧
    last (turn_guesses log) = Some (py "ample").
Proof.
  assert (MIN_LEN <= 5 <= MAX_LEN) as Hlen by (unfold MIN_LEN, MAX_LEN; lia).
  assert (VOCABULARY_BY_LENGTH [py "apple"; py "ample"; py "angle"; py "cat"] !! 5
          = Some [py "apple"; py "ample"; py "angle"]) as Hvocab.
  { vm_compute. reflexivity. }
  split; [exact Hlen |]. split; [exact Hvocab |].
  destruct (play_wordle_outcomes (N := real_num)
              [py "apple"; py "ample"; py "angle"; py "cat"] 3 7 5 None false
              _ Hlen Hvocab) as (out & v & Hplay & Hcases).
  - discriminate.
  - simpl. lia.
  - exists out, v.
    destruct Hcases as [(_ & _ & _ & t & Ht & _)
                       |(_ & _ & t & log & _ & _ & _ & Hdraw & Hlog & Hn & Hlast & _)];
      [discriminate Ht |].
    specialize (Hdraw eq_refl). vm_compute in Hdraw. injection Hdraw as <-.
    exists log. split; [exact Hplay |]. split; [exact Hlog |].
    split; [exact Hn | exact Hlast].
Defined.

(** X16. When the vocabulary of a length from 3 to 15 is empty,
    [play_wordle] reports every supplied target as invalid, and without
    a target it raises the [IndexError] of [random.choice]. *)
Theorem play_wordle_empty_vocabulary {N : PyNum} (english_words_set : list str)
    (fuel rnd : nat) (length' : Z) (target : option str) (verbose : bool) :
  MIN_LEN <= length' <= MAX_LEN ->
  VOCABULARY_BY_LENGTH english_words_set !! length' = Some [] ->
  play_wordle english_words_set fuel rnd length' target verbose
  = match target with
    | Some (c :: t) => Some ([MsgInvalidTarget (c :: t)], Ok (-1))
    | _ => Some ([], Raise IndexError)
    end.
Proof.
  intros Hlen Hvocab. unfold play_wordle.
  rewrite decide_False by lia. rewrite Hvocab. cbv zeta.
  destruct target as [[|c t]|]; try done. simpl.
  rewrite bool_decide_eq_true_2; [done |]. right. apply not_elem_of_nil.
Qed.

Lemma play_wordle_empty_vocabulary_witness :
  MIN_LEN <= 5 <= MAX_LEN ∧
  VOCABULARY_BY_LENGTH [py "cat"] !! 5 = Some [] ∧
  play_wordle (N := real_num) [py "cat"] 1 0 5 None true
  = Some ([], Raise IndexError).
Proof.
  assert (MIN_LEN <= 5 <= MAX_LEN) as Hlen by (unfold MIN_LEN, MAX_LEN; lia).
  assert (VOCABULARY_BY_LENGTH [py "cat"] !! 5 = Some []) as Hvocab.
  { vm_compute. reflexivity. }
  split; [exact Hlen |]. split; [exact Hvocab |].
  exact (play_wordle_empty_vocabulary (N := real_num) [py "cat"] 1 0 5 None
           true Hlen Hvocab).
Defined.

(** X17. In verbose mode, for a target in the vocabulary, the turn lines
    of the output are as many as the turns returned; the words played
    are vocabulary words, no word is played twice and the last one is
    the target; every turn line shows the feedback of its word against
    the target; and every progress line shows a count from 1 to below
    the size of the vocabulary. *)
Theorem play_wordle_trace {N : PyNum} (english_words_set : list str)
    (fuel rnd : nat) (length' : Z) (target : str) (full_vocab : list str) :
  MIN_LEN <= length' <= MAX_LEN ->
  VOCABULARY_BY_LENGTH english_words_set !! length' = Some full_vocab ->
  target ∈ full_vocab ->
  (length full_vocab <= fuel)%nat ->
  ∃ out turns,
    play_wordle english_words_set fuel rnd length' (Some target) true
    = Some (out, Ok turns) ∧
    len (turn_guesses out) = turns ∧
    NoDup (turn_guesses out) ∧
    Forall (λ g, g ∈ full_vocab) (turn_guesses out) ∧
    last (turn_guesses out) = Some target ∧
    Forall (truthful target) out ∧
    Forall (progress_below (len full_vocab) (len full_vocab)) out.
Proof.
  intros Hlen Hvocab Htarget Hfuel.
  pose proof (vocabulary_word_length _ _ _ Hvocab) as Hwords.
  assert (len target = length') as Htlen by (by eapply Forall_forall in Hwords).
  unfold play_wordle. rewrite decide_False by lia. rewrite Hvocab. cbv zeta.
  assert (truthy (Some target) = true) as ->.
  { destruct target; [| done]. unfold len, MIN_LEN in *. simpl in *. lia. }
  rewrite bool_decide_eq_false_2 by (intros [?|?]; done). cbn [andb].
  destruct (play_loop_trace fuel length' target (len full_vocab)
              (len full_vocab) 0 full_vocab [] Hwords Htarget Hfuel)
    as (out' & n & -> & Hn & Hnd & Hin & Hlast & Htruth & Hprog).
  { destruct full_vocab; [by apply elem_of_nil in Htarget | done]. }
  { lia. }
  eexists _, _. split; [done |]. simpl.
  rewrite turn_guesses_app. simpl. rewrite app_nil_r.
  split; [lia |]. split; [done |]. split; [done |]. split; [done |].
  split; apply Forall_app; by repeat constructor.
Qed.

Lemma play_wordle_trace_witness :
  MIN_LEN <= 5 <= MAX_LEN ∧
  VOCABULARY_BY_LENGTH [py "apple"; py "ample"; py "angle"; py "cat"] !! 5
  = Some [py "apple"; py "ample"; py "angle"] ∧
  ∃ out turns,
    play_wordle (N := real_num) [py "apple"; py "ample"; py "angle"; py "cat"]
      3 0 5 (Some (py "angle")) true
    = Some (out, Ok turns) ∧
    NoDup (turn_guesses out).
Proof.
  assert (MIN_LEN <= 5 <= MAX_LEN) as Hlen by (unfold MIN_LEN, MAX_LEN; lia).
  assert (VOCABULARY_BY_LENGTH [py "apple"; py "ample"; py "angle"; py "cat"] !! 5
          = Some [py "apple"; py "ample"; py "angle"]) as Hvocab.
  { vm_compute. reflexivity. }
  split; [exact Hlen |]. split; [exact Hvocab |].
  destruct (play_wordle_trace (N := real_num)
              [py "apple"; py "ample"; py "angle"; py "cat"] 3 0 5 (py "angle")
              _ Hlen Hvocab) as (out & turns & Hplay & _ & Hnd & _).
  - right. right. left.
  - simpl. lia.
  - by exists out, turns.
Defined.

(** X18. [verbose] changes what [play_wordle] prints and nothing else:
    the result is the same with it and without it, and without it at
    most one line is printed. *)
Theorem play_wordle_verbose {N : PyNum} (english_words_set : list str)
    (fuel rnd : nat) (length' : Z) (target : option str) :
  snd <$> play_wordle english_words_set fuel rnd length' target true
  = snd <$> play_wordle english_words_set fuel rnd length' target false ∧
  ∀ out r,
    play_wordle english_words_set fuel rnd length' target false = Some (out, r) ->
    (length out <= 1)%nat.
Proof.
  unfold play_wordle. case_decide; [split; [done | intros ? ? [= <- _]; simpl; lia] |].
  destruct (VOCABULARY_BY_LENGTH english_words_set !! length')
    as [full_vocab|]; [| split; [done | intros ? ? [= <- _]; simpl; lia]].
  cbv zeta.
  destruct (truthy target && _) eqn:Hbad;
    [split; [done | intros ? ? [= <- _]; simpl; lia] |].
  assert (∀ t, t ∈ full_vocab -> len full_vocab ≠ 0) as Hmax.
  { intros t Hin. destruct full_vocab; [by apply elem_of_nil in Hin |].
    unfold len. simpl. lia. }
  destruct (truthy target) eqn:Htruthy.
  - cbn [andb] in Hbad. apply bool_decide_eq_false in Hbad.
    set (t := match target with Some t => t | None => [] end) in *.
    assert (t ∈ full_vocab) as Hin.
    { destruct (decide (t ∈ full_vocab)); [done | tauto]. }
    split; [by eapply play_loop_verbose, Hmax |].
    intros out r Hplay.
    by destruct (play_loop_quiet _ _ _ _ _ _ _ _ _ Hplay) as (final & -> & ?).
  - destruct full_vocab as [|w ws];
      [split; [done | intros ? ? [= <- _]; simpl; lia] |].
    destruct (random_choice_elem rnd (w :: ws)) as (t & -> & Hin); [done |].
    split; [by eapply play_loop_verbose, Hmax |].
    intros out r Hplay.
    by destruct (play_loop_quiet _ _ _ _ _ _ _ _ _ Hplay) as (final & -> & ?).
Qed.

Lemma play_wordle_verbose_witness :
  play_wordle (N := real_num) [py "apple"; py "cat"] 1 0 5 None false
  = Some ([MsgSolved (py "apple") 1], Ok 1) ∧
  (length [MsgSolved (N := real_num) (py "apple") 1] <= 1)%nat.
Proof.
  assert (play_wordle (N := real_num) [py "apple"; py "cat"] 1 0 5 None false
          = Some ([MsgSolved (py "apple") 1], Ok 1)) as Hplay.
  { vm_compute. reflexivity. }
  split; [exact Hplay |].
  exact (proj2 (play_wordle_verbose (N := real_num) [py "apple"; py "cat"]
                  1 0 5 None) _ _ Hplay).
Defined.

(** * Properties of [interactive_manual_mode] *)

Section Interactive.

Context {N : PyNum}.

Lemma rank_guesses_same_length (length' : Z) (candidates : list str) (topn : Z) :
  Forall (λ w, len w = length') candidates ->
  ∃ ranking, rank_guesses candidates candidates topn = Ok ranking.
Proof.
  intros Hlen.
  destruct (rank_guesses_returns candidates candidates topn)
    as (scored & _ & ->); [| by eexists].
  apply Forall_forall. intros w Hw. eapply same_length_le; [| done].
  by eapply Forall_forall in Hlen.
Qed.

(** The loop of the interactive mode ends normally or at the end of the
    input. *)
Lemma interactive_loop_safe (n : nat) (inputs : list str) (length' : Z)
    (full_vocab : list str) (max_candidates turn : Z) (candidates : list str)
    (out : list message) :
  (length inputs <= n)%nat ->
  Forall (λ w, len w = length') candidates ->
  max_candidates ≠ 0 ->
  (interactive_loop inputs length' full_vocab max_candidates turn candidates
     out).2 = Ok () ∨
  (interactive_loop inputs length' full_vocab max_candidates turn candidates
     out).2 = Raise EOFError.
Proof.
  intros Hn Hlen Hmax. revert inputs turn candidates out Hn Hlen.
  induction n as [|n IH]; intros inputs turn candidates out Hn Hlen.
  { destruct inputs; [by right | simpl in Hn; lia]. }
  destruct inputs as [|line inputs]; [by right |]. simpl in Hn.
  cbn [interactive_loop]. cbv zeta.
  case_bool_decide as Hguess; [apply IH; [lia | done] |].
  destruct inputs as [|line2 inputs]; [by right |]. simpl in Hn.
  destruct (_ || _); [apply IH; [lia | done] |].
  case_decide; [by left |].
  assert (len (lower (strip line)) = length') as Hglen.
  { destruct (decide (len (lower (strip line)) = length')); [done | tauto]. }
  rewrite filter_candidates_returns by (by eapply same_length_le).
  set (kept := filter _ candidates).
  assert (Forall (λ w, len w = length') kept) as Hklen.
  { apply Forall_forall. intros w Hw. apply list_elem_of_filter in Hw as [_ Hw].
    by eapply Forall_forall in Hlen. }
  destruct kept as [|k kept'] eqn:Hk; [by left |].
  unfold visualize_candidates. rewrite decide_False by done.
  destruct (rank_guesses_same_length length' (k :: kept') 100 Hklen)
    as [ranking ->].
  apply IH; [lia | done].
Qed.

(** Lines that the guess prompt rejects are skipped: the loop goes on
    with the same turn number and the same candidates. *)
Lemma interactive_loop_skips (bad inputs : list str) (length' : Z)
    (full_vocab : list str) (max_candidates turn : Z) (candidates : list str)
    (out : list message) :
  Forall (rejected_guess length' full_vocab) bad ->
  interactive_loop (bad ++ inputs) length' full_vocab max_candidates turn
    candidates out
  = interactive_loop inputs length' full_vocab max_candidates turn candidates
      (out ++ (bad ≫= λ _, [MsgCandidateCount (turn + 1) (len candidates);
                             MsgPromptGuess length'; MsgInvalidWord])).
Proof.
  intros Hbad. revert out.
  induction Hbad as [|line bad Hline _ IH]; intros out.
  { simpl. by rewrite app_nil_r. }
  simpl. rewrite bool_decide_eq_true_2 by exact Hline.
  replace (turn + 1 - 1) with turn by lia.
  rewrite IH. by rewrite <- !app_assoc.
Qed.

Lemma existsb_not_mark (fb : str) :
  existsb (λ c, bool_decide (c ∉ [GREEN; YELLOW; BLACK])) fb = true
  ↔ ¬ Forall is_mark fb.
Proof.
  induction fb as [|c fb IH]; simpl.
  - split; [discriminate 1 |]. intros H. destruct H. constructor.
  - rewrite orb_true_iff, IH, bool_decide_eq_true, Forall_cons.
    unfold is_mark. rewrite !elem_of_cons, elem_of_nil.
    destruct (decide (c = GREEN)), (decide (c = YELLOW)), (decide (c = BLACK));
      tauto.
Qed.

End Interactive.

(** X19. Whatever the length and the input lines are, the interactive
    mode raises no [IndexError], [KeyError], [ValueError] or
    [ZeroDivisionError]: it ends normally, or with the [EOFError] of
    [input] when the lines run out. *)
Theorem interactive_manual_mode_safe {N : PyNum} (english_words_set : list str)
    (length' : Z) (inputs : list str) :
  (interactive_manual_mode english_words_set length' inputs).2 = Ok () ∨
  (interactive_manual_mode english_words_set length' inputs).2 = Raise EOFError.
Proof.
  unfold interactive_manual_mode.
  destruct (VOCABULARY_BY_LENGTH english_words_set !! length')
    as [[|w full_vocab]|] eqn:Hvocab; [by left | | by left].
  apply (interactive_loop_safe (length inputs)); [done | |].
  - by eapply vocabulary_word_length.
  - unfold len. simpl. lia.
Qed.

(** X20. Input that a prompt of the interactive mode rejects costs no
    turn and leaves the candidates as they are: the loop skips any
    number of rejected guess lines, and it skips an accepted guess line
    together with the rejected feedback line that follows it. *)
Theorem interactive_loop_rejects {N : PyNum} (length' : Z)
    (full_vocab : list str) (max_candidates turn : Z) (candidates : list str)
    (out : list message) (inputs : list str) :
  (∀ bad,
     Forall (rejected_guess length' full_vocab) bad ->
     interactive_loop (bad ++ inputs) length' full_vocab max_candidates turn
       candidates out
     = interactive_loop inputs length' full_vocab max_candidates turn candidates
         (out ++ (bad ≫= λ _, [MsgCandidateCount (turn + 1) (len candidates);
                                MsgPromptGuess length'; MsgInvalidWord]))) ∧
  (∀ guess_line feedback_line,
     ¬ rejected_guess length' full_vocab guess_line ->
     rejected_feedback length' feedback_line ->
     interactive_loop (guess_line :: feedback_line :: inputs) length' full_vocab
       max_candidates turn candidates out
     = interactive_loop inputs length' full_vocab max_candidates turn candidates
         (out ++ [MsgCandidateCount (turn + 1) (len candidates);
                  MsgPromptGuess length'; MsgPromptFeedback;
                  MsgInvalidFeedback])).
Proof.
  split; [intros bad; apply interactive_loop_skips |].
  intros guess_line feedback_line Hguess Hfb.
  cbn [interactive_loop]. cbv zeta.
  rewrite bool_decide_eq_false_2 by exact Hguess.
  assert (bool_decide (len (lower (strip feedback_line)) ≠ length')
          || existsb (λ c, bool_decide (c ∉ [GREEN; YELLOW; BLACK]))
               (lower (strip feedback_line)) = true) as ->.
  { apply orb_true_iff. destruct Hfb as [Hl|Hm].
    - left. by apply bool_decide_eq_true.
    - right. by apply existsb_not_mark. }
  replace (turn + 1 - 1) with turn by lia.
  by rewrite <- !app_assoc.
Qed.

Lemma interactive_loop_rejects_witness :
  rejected_guess 5 [py "apple"] (py "zzz") ∧
  interactive_loop (N := real_num) [py "zzz"; py " Apple "; py "ggggg"] 5
    [py "apple"] 1 0 [py "apple"] []
  = ([MsgCandidateCount 1 1; MsgPromptGuess 5; MsgInvalidWord;
      MsgCandidateCount 1 1; MsgPromptGuess 5; MsgPromptFeedback;
      MsgSuccess (py "apple") 1], Ok ()).
Proof.
  assert (rejected_guess 5 [py "apple"] (py "zzz")) as Hbad.
  { left. vm_compute. discriminate. }
  split; [exact Hbad |].
  destruct (interactive_loop_rejects (N := real_num) 5 [py "apple"] 1 0
              [py "apple"] [] [py " Apple "; py "ggggg"]) as [Hskip _].
  etrans; [exact (Hskip [py "zzz"] (Forall_cons_2 _ _ _ Hbad (Forall_nil_2 _))) |].
  vm_compute. reflexivity.
Defined.

(** * Properties of [main] *)

Lemma play_wordle_returns {N : PyNum} (english_words_set : list str)
    (fuel rnd : nat) (length' : Z) (target : option str) (verbose : bool)
    (full_vocab : list str) :
  MIN_LEN <= length' <= MAX_LEN ->
  VOCABULARY_BY_LENGTH english_words_set !! length' = Some full_vocab ->
  full_vocab ≠ [] ->
  (length full_vocab <= fuel)%nat ->
  ∃ out v,
    play_wordle english_words_set fuel rnd length' target verbose
    = Some (out, Ok v).
Proof.
  intros Hlen Hvocab Hne Hfuel.
  pose proof (vocabulary_word_length _ _ _ Hvocab) as Hwords.
  assert (len full_vocab ≠ 0) as Hmax.
  { destruct full_vocab; [done | unfold len; simpl; lia]. }
  unfold play_wordle. rewrite decide_False by lia. rewrite Hvocab. cbv zeta.
  destruct (truthy target) eqn:Htruthy.
  - cbn [andb]. case_bool_decide as Hbad; [by eexists _, _ |].
    set (t := match target with Some t => t | None => [] end) in *.
    assert (t ∈ full_vocab) as Hin.
    { destruct (decide (t ∈ full_vocab)); [done | tauto]. }
    destruct (play_loop_solves fuel length' t verbose (len full_vocab) 0
                full_vocab [] Hwords Hin Hfuel Hmax) as (out' & n & -> & _).
    by eexists _, _.
  - cbn [andb].
    destruct (random_choice_elem rnd full_vocab Hne) as (t & -> & Hin).
    destruct (play_loop_solves fuel length' t verbose (len full_vocab) 0
                full_vocab [] Hwords Hin Hfuel Hmax) as (out' & n & -> & _).
    by eexists _, _.
Qed.

(** X21. [main] lets three exceptions out and no other.  A command line
    that [argparse] rejects, or that asks for help, ends [main] with the
    [SystemExit] of the parser after the banner, before a mode starts.
    Otherwise, when the vocabulary of the requested length, if there is
    one, is not empty and the fuel covers it, only the [ValueError] of
    [play_wordle] for a length outside 3..15 in auto mode and the
    [EOFError] of [input] in the interactive mode get out.  The flags
    [--interactive] and [--manual-guess] select the same mode, which
    ignores [--target]. *)
Theorem main_exceptions {N : PyNum} (english_words_set : list str)
    (parse_args : list str -> Z + args) (fuel rnd : nat)
    (argv inputs : list str) :
  (∀ a full_vocab,
     parse_args argv = inr a ->
     VOCABULARY_BY_LENGTH english_words_set !! args_length a = Some full_vocab ->
     full_vocab ≠ [] ∧ (length full_vocab <= fuel)%nat) ->
  ∃ out r,
    main english_words_set parse_args fuel rnd argv inputs = Some (out, r) ∧
    match parse_args argv with
    | inl code =>
      r = Raise (SystemExit code) ∧ out = [MsgBanner; MsgRule; MsgArgparse code]
    | inr a =>
      (r = Ok () ∨
       (r = Raise ValueError ∧
        args_interactive a || args_manual_guess a = false ∧
        (args_length a < MIN_LEN ∨ args_length a > MAX_LEN)) ∨
       (r = Raise EOFError ∧ args_interactive a || args_manual_guess a = true)) ∧
      (args_interactive a || args_manual_guess a = true ->
       ∀ argv' a',
         parse_args argv' = inr a' ->
         args_length a' = args_length a ->
         args_interactive a' || args_manual_guess a' = true ->
         main english_words_set parse_args fuel rnd argv inputs
         = main english_words_set parse_args fuel rnd argv' inputs)
    end.
Proof.
  intros Hvocab. unfold main.
  destruct (parse_args argv) as [code|a] eqn:Hparse.
  { eexists _, _. split; [done |]. by split. }
  specialize (Hvocab a).
  destruct (args_interactive a || args_manual_guess a) eqn:Hmode; simpl.
  - eexists _, _. split; [done |]. split.
    + assert ((interactive_manual_mode english_words_set (args_length a)
                 inputs).2 = Ok () ∨
              (interactive_manual_mode english_words_set (args_length a)
                 inputs).2 = Raise EOFError) as [-> | ->];
        [| by left | by right; right].
      unfold interactive_manual_mode.
      destruct (VOCABULARY_BY_LENGTH english_words_set !! args_length a)
        as [[|w full_vocab]|] eqn:Hv; [by left | | by left].
      apply (interactive_loop_safe (length inputs)); [done | |].
      * by eapply vocabulary_word_length.
      * unfold len. simpl. lia.
    + intros _ argv' a' -> Hlen' ->. by rewrite Hlen'.
  - destruct (decide (args_length a < MIN_LEN ∨ args_length a > MAX_LEN))
      as [Hout|Hin].
    + unfold play_wordle. rewrite decide_True by done. simpl.
      eexists _, _. split; [done |]. split; [| done]. right. left. done.
    + destruct (VOCABULARY_BY_LENGTH english_words_set !! args_length a)
        as [full_vocab|] eqn:Hv.
      * destruct (Hvocab full_vocab eq_refl eq_refl) as [Hne Hfuel].
        destruct (play_wordle_returns english_words_set fuel rnd (args_length a)
                    (args_target a) true full_vocab ltac:(lia) Hv Hne Hfuel)
          as (out & v & ->).
        simpl. eexists _, _. split; [done |]. split; [by left | done].
      * rewrite vocabulary_lookup in Hv. rewrite decide_True in Hv by lia.
        discriminate Hv.
Qed.

(** The parser of the witness knows two command lines: the empty one,
    on which [argparse] returns the defaults of lines 203-206, and every
    other one, which it rejects with status 2. *)
Lemma main_exceptions_witness :
  (∀ a full_vocab,
     (λ argv : list str,
        match argv with
        | [] => inr {| args_length := 5; args_target := None;
                       args_interactive := false; args_manual_guess := false |}
        | _ => inl 2
        end) [] = inr a ->
     VOCABULARY_BY_LENGTH [py "apple"; py "cat"] !! args_length a
     = Some full_vocab ->
     full_vocab ≠ [] ∧ (length full_vocab <= 1)%nat) ∧
  ∃ out,
    main (N := real_num) [py "apple"; py "cat"]
      (λ argv : list str,
         match argv with
         | [] => inr {| args_length := 5; args_target := None;
                        args_interactive := false; args_manual_guess := false |}
         | _ => inl 2
         end) 1 0 [] []
    = Some (out, Ok ()).
Proof.
  set (parse_args := λ argv : list str,
         match argv with
         | [] => inr {| args_length := 5; args_target := None;
                        args_interactive := false; args_manual_guess := false |}
         | _ => inl 2
         end).
  assert (∀ a full_vocab,
            parse_args [] = inr a ->
            VOCABULARY_BY_LENGTH [py "apple"; py "cat"] !! args_length a
            = Some full_vocab ->
            full_vocab ≠ [] ∧ (length full_vocab <= 1)%nat) as Hvocab.
  { intros a full_vocab [= <-] H. vm_compute in H. injection H as <-.
    split; [discriminate | simpl; lia]. }
  split; [exact Hvocab |].
  destruct (main_exceptions (N := real_num) [py "apple"; py "cat"] parse_args
              1 0 [] [] Hvocab) as (out & r & Hmain & Hr).
  exists out. rewrite Hmain. f_equal. f_equal.
  simpl in Hr. destruct Hr as [[-> | [[_ [_ Hlen]] | [_ Hmode]]] _];
    [done | | discriminate Hmode].
  unfold MIN_LEN, MAX_LEN in Hlen. simpl in Hlen. lia.
Defined.

(** * The exceptions of [calculate_entropy] *)

Lemma count_patterns_raises (guess : str) (candidates : list str)
    (pc : list (str * Z)) :
  ¬ Forall (λ w, (length guess <= length w)%nat) candidates ->
  for_each (count_pattern guess) candidates pc = Raise IndexError.
Proof.
  revert pc. induction candidates as [|w rest IH]; intros pc Hall.
  { destruct Hall. constructor. }
  simpl. destruct (decide (length guess <= length w)%nat) as [Hle|Hgt].
  - destruct (feedback_returns guess w Hle) as (f & Hf & _).
    assert (count_pattern guess w pc
            = Ok (dict_set pc f (dict_get pc f 0 + 1))) as ->.
    { unfold count_pattern. by rewrite Hf. }
    simpl. apply IH. intros Hrest. apply Hall. by constructor.
  - assert (count_pattern guess w pc = Raise IndexError) as ->; [| done].
    unfold count_pattern. by rewrite feedback_raises by lia.
Qed.

(** X22. [calculate_entropy] raises exactly when a candidate is shorter
    than the guess, and then it raises the [IndexError] of [feedback]:
    no candidate list, empty or not, makes it divide by zero. *)
Theorem calculate_entropy_raises_iff {N : PyNum} (guess : str)
    (candidates : list str) :
  (calculate_entropy guess candidates = Raise IndexError
   ↔ ∃ w, w ∈ candidates ∧ (length w < length guess)%nat) ∧
  (∀ e, calculate_entropy guess candidates = Raise e -> e = IndexError).
Proof.
  destruct (decide (Forall (λ w, (length guess <= length w)%nat) candidates))
    as [Hall|Hall].
  - destruct (calculate_entropy_returns guess candidates Hall) as (fbs & _ & ->).
    split; [| discriminate 1]. split; [discriminate 1 |].
    intros (w & Hin & Hlt). eapply Forall_forall in Hall; [| exact Hin].
    simpl in Hall. lia.
  - assert (calculate_entropy guess candidates = Raise IndexError) as ->.
    { unfold calculate_entropy. by rewrite count_patterns_raises. }
    split; [| by intros e [= <-]]. split; [| done]. intros _.
    apply not_Forall_Exists in Hall; [| apply _].
    apply Exists_exists in Hall as (w & Hin & Hw). exists w.
    split; [done |]. simpl in Hw. lia.
Qed.
